(** * heap_history_viewer: the window, event-log and point-query model of
      [heaphistory.h], with the properties of its specification.

    The header is embedded shallowly.  Unsigned fields are [Z] with the
    wrap-around of their width written out, [double] is the binary64 type
    of the Standard Library ([PrimFloat.float]), the vector of blocks is a
    list addressed by position, and the map of live blocks is a [gmap].
    Member functions that the header only declares are modelled from the
    specification and say so in their comment. *)

From Stdlib Require Import ZArith Lia Floats.
From stdpp Require Import base option list gmap sorting.

Local Open Scope Z_scope.

(** ** Unsigned integer types *)

(** The two instantiations of the templates that the header names:
    [uint32_t] and [uint64_t]. *)
Inductive UIntType := U32 | U64.

Definition bits (T : UIntType) : Z :=
  match T with U32 => 32 | U64 => 64 end.

(** [std::numeric_limits<T>::max()] *)
Definition numeric_limits_max (T : UIntType) : Z := 2 ^ bits T - 1.

(** Reduction of a mathematical integer to the value an unsigned [T] holds. *)
Definition wrap (T : UIntType) (z : Z) : Z := z mod 2 ^ bits T.

Definition in_range (T : UIntType) (z : Z) : Prop := 0 <= z <= numeric_limits_max T.

(** ** [double] and its conversions *)

Definition double := float.

(** Integer to [double]: the nearest binary64 value, ties to even. *)
Definition Z_to_double (z : Z) : double :=
  SF2Prim (binary_normalize prec emax z 0 false).

(** The conversion of an unsigned operand in a comparison or a sum with a
    [double]. *)
Definition uint_to_double (z : Z) : double := Z_to_double z.

(** The integer part of mantissa [m] scaled by [2 ^ e], toward zero. *)
Definition integer_part (m : positive) (e : Z) : Z :=
  match e with
  | Zneg p => Z.shiftr (Zpos m) (Zpos p)
  | _ => Z.shiftl (Zpos m) e
  end.

(** The integer part of a finite [double] (truncation toward zero). *)
Definition truncate (d : double) : option Z :=
  match Prim2SF d with
  | S754_zero _ => Some 0
  | S754_finite s m e =>
      Some (if s then - integer_part m e else integer_part m e)
  | S754_infinity _ | S754_nan => None
  end.

(** [double] to unsigned [T]: the fractional part is discarded; the
    conversion has no defined result when the truncated value is not a
    value of [T] (or the operand is an infinity or a NaN). *)
Definition double_to_uint (T : UIntType) (d : double) : option Z :=
  match truncate d with
  | Some t => if (0 <=? t) && (t <=? numeric_limits_max T) then Some t else None
  | None => None
  end.

(** Whether the [double] [d] is exactly the integer [z]: a zero for 0, or a
    finite number of sign [s], mantissa [m] and exponent [e] with
    [(-1)^s * m * 2^e = z], both sides scaled to integers. *)
Definition is_integer (d : double) (z : Z) : bool :=
  match Prim2SF d with
  | S754_zero _ => z =? 0
  | S754_finite s m e =>
      (if s then - Zpos m else Zpos m) * 2 ^ Z.max 0 e =? z * 2 ^ Z.max 0 (- e)
  | S754_infinity _ | S754_nan => false
  end.

(** What a call can come to. *)
Inductive Undefined := FlowsOffEnd | UnrepresentableConversion.

Inductive outcome (A : Type) :=
  | Returns (a : A)
  | Undef (why : Undefined).
Arguments Returns {A} a.
Arguments Undef {A} why.

#[global] Instance outcome_ret : MRet outcome := @Returns.

#[global] Instance outcome_bind : MBind outcome :=
  λ A B k x, match x with
             | Returns a => k a
             | Undef why => Undef why
             end.

(** ** class HeapWindow *)

Record HeapWindow := {
  minimum_address_ : Z;   (* uint64_t *)
  maximum_address_ : Z;   (* uint64_t *)
  minimum_tick_ : Z;      (* uint32_t *)
  maximum_tick_ : Z       (* uint32_t *)
}.

(** The values a [HeapWindow] object can hold. *)
Definition HeapWindow_wf (w : HeapWindow) : Prop :=
  in_range U64 (minimum_address_ w) /\ in_range U64 (maximum_address_ w) /\
  in_range U32 (minimum_tick_ w) /\ in_range U32 (maximum_tick_ w).

(** [uint64_t height() { return maximum_address_ - minimum_address_; }] *)
Definition height (w : HeapWindow) : Z :=
  wrap U64 (maximum_address_ w - minimum_address_ w).

(** [uint32_t width() { return maximum_tick_ - minimum_tick_; }] *)
Definition width (w : HeapWindow) : Z :=
  wrap U32 (maximum_tick_ w - minimum_tick_ w).

(** [void reset(const HeapWindow &window) { *this = window; }] *)
Definition HeapWindow_reset (this window : HeapWindow) : HeapWindow := window.

(** ** saturatingAddition *)

(** [template <typename T> int32_t saturatingAddition(double value, T *result)]:
    the pair is the returned code and the value left in [*result]. *)
Definition saturatingAddition (T : UIntType) (value : double) (result : Z)
  : outcome (Z * Z) :=
  if (0 <? value)%float
     && (uint_to_double (wrap T (numeric_limits_max T - result)) <? value)%float
  then Returns (1, numeric_limits_max T)
  else if (value <? 0)%float && (uint_to_double result <? abs value)%float
  then Returns (-1, 0)
  else match double_to_uint T (uint_to_double result + value)%float with
       | Some r => Returns (0, r)
       | None => Undef UnrepresentableConversion
       end.

(** ** class ContinuousHeapWindow *)

(** The four bounds have the names of those of [HeapWindow] in the header;
    the prefix keeps the two sets of projections apart. *)
Record ContinuousHeapWindow := {
  c_minimum_address_ : Z;   (* uint64_t *)
  c_maximum_address_ : Z;   (* uint64_t *)
  c_minimum_tick_ : Z;      (* uint32_t *)
  c_maximum_tick_ : Z;      (* uint32_t *)
  x_shift_ : float;         (* float *)
  y_shift_ : float          (* float *)
}.

Definition ContinuousHeapWindow_wf (w : ContinuousHeapWindow) : Prop :=
  in_range U64 (c_minimum_address_ w) /\ in_range U64 (c_maximum_address_ w) /\
  in_range U32 (c_minimum_tick_ w) /\ in_range U32 (c_maximum_tick_ w).

(** [void reset(const HeapWindow &window)]: four assignments. *)
Definition reset (this : ContinuousHeapWindow) (window : HeapWindow)
  : ContinuousHeapWindow :=
  {| c_minimum_address_ := minimum_address_ window;
     c_maximum_address_ := maximum_address_ window;
     c_minimum_tick_ := minimum_tick_ window;
     c_maximum_tick_ := maximum_tick_ window;
     x_shift_ := x_shift_ this;
     y_shift_ := y_shift_ this |}.

Definition getMinimumAddress (this : ContinuousHeapWindow) : Z :=
  c_minimum_address_ this.

(** [static_cast<uint32_t>(minimum_address_)] *)
Definition getMinimumAddressLow32 (this : ContinuousHeapWindow) : Z :=
  wrap U32 (c_minimum_address_ this).

(** [static_cast<uint32_t>(minimum_address_ >> 32)] *)
Definition getMinimumAddressHigh32 (this : ContinuousHeapWindow) : Z :=
  wrap U32 (Z.shiftr (c_minimum_address_ this) 32).

Definition getMaximumAddress (this : ContinuousHeapWindow) : Z :=
  c_maximum_address_ this.
Definition getMinimumTick (this : ContinuousHeapWindow) : Z :=
  c_minimum_tick_ this.
Definition getMaximumTick (this : ContinuousHeapWindow) : Z :=
  c_maximum_tick_ this.

(** [double height() { return maximum_address_ - minimum_address_; }]: the
    difference is taken in [uint64_t] and converted by the return.  The
    prefix keeps the name apart from [HeapWindow]'s [height]. *)
Definition c_height (this : ContinuousHeapWindow) : double :=
  uint_to_double (wrap U64 (c_maximum_address_ this - c_minimum_address_ this)).

(** [double width() { return maximum_tick_ - minimum_tick_; }]: the
    difference is taken in [uint32_t] and converted by the return. *)
Definition c_width (this : ContinuousHeapWindow) : double :=
  uint_to_double (wrap U32 (c_maximum_tick_ this - c_minimum_tick_ this)).

(** [static_cast<double>(minimum_address_)] and its three siblings. *)
Definition getMinimumAddressAsDouble (this : ContinuousHeapWindow) : double :=
  uint_to_double (c_minimum_address_ this).
Definition getMaximumAddressAsDouble (this : ContinuousHeapWindow) : double :=
  uint_to_double (c_maximum_address_ this).
Definition getMinimumTickAsDouble (this : ContinuousHeapWindow) : double :=
  uint_to_double (c_minimum_tick_ this).
Definition getMaximumTickAsDouble (this : ContinuousHeapWindow) : double :=
  uint_to_double (c_maximum_tick_ this).

(** [T saturatedAdd(T value, double addend, T upperlimit, T lowerlimit)].
    The differences are taken in [T] and compared as [double]; the sums are
    taken in [double] and converted to [T] by the return.  When neither
    [addend > 0] nor [addend < 0] holds, no [return] is reached. *)
Definition saturatedAdd (T : UIntType) (value : Z) (addend : double)
    (upperlimit lowerlimit : Z) : outcome Z :=
  if (0 <? addend)%float then
    if (uint_to_double (wrap T (upperlimit - value)) <? addend)%float
    then Returns upperlimit
    else match double_to_uint T (uint_to_double value + addend)%float with
         | Some r => Returns r
         | None => Undef UnrepresentableConversion
         end
  else if (addend <? 0)%float then
    if (uint_to_double (wrap T (value - lowerlimit)) <? abs addend)%float
    then Returns lowerlimit
    else match double_to_uint T (uint_to_double value - abs addend)%float with
         | Some r => Returns r
         | None => Undef UnrepresentableConversion
         end
  else Undef FlowsOffEnd.

(** ** Integers in binary64 *)

(** The 53-digit mantissa of a positive integer of at most 53 bits. *)
Definition mantissa53 (p : positive) : positive :=
  fst (shl_align p 0 (Zpos (digits2_pos p) - 53)).

(** The binary64 representation of an integer of at most 53 bits. *)
Definition canonical (z : Z) : spec_float :=
  match z with
  | Z0 => S754_zero false
  | Zpos p => S754_finite false (mantissa53 p) (Zpos (digits2_pos p) - 53)
  | Zneg p => S754_finite true (mantissa53 p) (Zpos (digits2_pos p) - 53)
  end.

(** ** class HeapConflict *)

Record HeapConflict := {
  tick_ : Z;                    (* uint32_t *)
  address_ : Z;                 (* uint64_t *)
  allocation_or_free_ : bool    (* true: alloc, false: free *)
}.

(** ** HeapBlock *)

(** Modelled from the spec: [heapblock.h] is not part of the sources.  A
    Block has a start address, a size (its end is start + size), a heap
    identifier, an allocation tick and a free tick that is unset while the
    block is live. *)
Record HeapBlock := {
  start_address : Z;
  block_size : Z;
  block_heap_id : Z;
  allocation_tick : Z;
  free_tick : option Z
}.

Definition end_address (b : HeapBlock) : Z := start_address b + block_size b.

(** Modelled from the spec: the address range of the block contains
    [address] and its lifetime [allocation tick, free tick or open)
    contains [tick]. *)
Definition contains (b : HeapBlock) (address tick : Z) : bool :=
  (start_address b <=? address) && (address <? end_address b)
  && (allocation_tick b <=? tick)
  && match free_tick b with
     | None => true
     | Some f => tick <? f
     end.

(** ** class HeapHistory *)

Record HeapHistory := {
  cached_blocks_sorted_by_address_ : list nat;
  current_tick_ : Z;                          (* uint32_t *)
  current_window_ : ContinuousHeapWindow;
  grid_rectangle_ : ContinuousHeapWindow;
  global_area_ : HeapWindow;
  heap_blocks_ : list HeapBlock;
  live_blocks_ : gmap (Z * Z) nat;
  conflicts_ : list HeapConflict
}.

(** [void setCurrentWindowToGlobal() { current_window_.reset(global_area_); }] *)
Definition setCurrentWindowToGlobal (h : HeapHistory) : HeapHistory :=
  {| cached_blocks_sorted_by_address_ := cached_blocks_sorted_by_address_ h;
     current_tick_ := current_tick_ h;
     current_window_ := reset (current_window_ h) (global_area_ h);
     grid_rectangle_ := grid_rectangle_ h;
     global_area_ := global_area_ h;
     heap_blocks_ := heap_blocks_ h;
     live_blocks_ := live_blocks_ h;
     conflicts_ := conflicts_ h |}.

Definition getCurrentWindow (h : HeapHistory) : ContinuousHeapWindow :=
  current_window_ h.

(** [uint64_t getMinimumAddress() const { return global_area_.minimum_address_; }]
    and its three siblings of [HeapHistory]; the prefix keeps them apart from
    the getters of [ContinuousHeapWindow]. *)
Definition HeapHistory_getMinimumAddress (h : HeapHistory) : Z :=
  minimum_address_ (global_area_ h).
Definition HeapHistory_getMaximumAddress (h : HeapHistory) : Z :=
  maximum_address_ (global_area_ h).
Definition HeapHistory_getMinimumTick (h : HeapHistory) : Z :=
  minimum_tick_ (global_area_ h).
Definition HeapHistory_getMaximumTick (h : HeapHistory) : Z :=
  maximum_tick_ (global_area_ h).

(** Field updates used by the record operations. *)
Definition with_log (h : HeapHistory) (tick : Z) (area : HeapWindow)
    (blocks : list HeapBlock) (live : gmap (Z * Z) nat) : HeapHistory :=
  {| cached_blocks_sorted_by_address_ := cached_blocks_sorted_by_address_ h;
     current_tick_ := tick;
     current_window_ := current_window_ h;
     grid_rectangle_ := grid_rectangle_ h;
     global_area_ := area;
     heap_blocks_ := blocks;
     live_blocks_ := live;
     conflicts_ := conflicts_ h |}.

Definition with_conflict (h : HeapHistory) (c : HeapConflict) : HeapHistory :=
  {| cached_blocks_sorted_by_address_ := cached_blocks_sorted_by_address_ h;
     current_tick_ := current_tick_ h;
     current_window_ := current_window_ h;
     grid_rectangle_ := grid_rectangle_ h;
     global_area_ := global_area_ h;
     heap_blocks_ := heap_blocks_ h;
     live_blocks_ := live_blocks_ h;
     conflicts_ := conflicts_ h ++ [c] |}.

Definition with_index (h : HeapHistory) (index : list nat) : HeapHistory :=
  {| cached_blocks_sorted_by_address_ := index;
     current_tick_ := current_tick_ h;
     current_window_ := current_window_ h;
     grid_rectangle_ := grid_rectangle_ h;
     global_area_ := global_area_ h;
     heap_blocks_ := heap_blocks_ h;
     live_blocks_ := live_blocks_ h;
     conflicts_ := conflicts_ h |}.

(** Modelled from the spec: the constructor [HeapHistory()] is only
    declared.  An empty history has no block, no live entry, no conflict,
    tick 0, and a global area that the first block replaces. *)
Definition HeapHistory_new : HeapHistory :=
  let blank := {| c_minimum_address_ := 0; c_maximum_address_ := 0;
                  c_minimum_tick_ := 0; c_maximum_tick_ := 0;
                  x_shift_ := 0%float; y_shift_ := 0%float |} in
  {| cached_blocks_sorted_by_address_ := [];
     current_tick_ := 0;
     current_window_ := blank;
     grid_rectangle_ := blank;
     global_area_ := {| minimum_address_ := numeric_limits_max U64;
                        maximum_address_ := 0;
                        minimum_tick_ := numeric_limits_max U32;
                        maximum_tick_ := 0 |};
     heap_blocks_ := [];
     live_blocks_ := ∅;
     conflicts_ := [] |}.

(** Modelled from the spec: [recordMallocConflict] is only declared.  The
    conflict carries the tick of its detection, the address and the kind
    alloc. *)
Definition recordMallocConflict (address size : Z) (heap_id : Z)
    (h : HeapHistory) : HeapHistory :=
  with_conflict h {| tick_ := current_tick_ h; address_ := address;
                     allocation_or_free_ := true |}.

(** Modelled from the spec: [recordFreeConflict] is only declared. *)
Definition recordFreeConflict (address : Z) (heap_id : Z)
    (h : HeapHistory) : HeapHistory :=
  with_conflict h {| tick_ := current_tick_ h; address_ := address;
                     allocation_or_free_ := false |}.

(** Saturating extension of a bound of the global area by an unsigned
    amount: the sum, or the maximum of the type when the sum passes it. *)
Definition saturating_extend (T : UIntType) (bound amount : Z) : Z :=
  Z.min (bound + amount) (numeric_limits_max T).

(** Modelled from the spec: the global area grows to cover the block
    [address, address + size) opened at [tick]; minima never increase,
    maxima never decrease. *)
Definition extend_global_area (g : HeapWindow) (address size tick : Z)
  : HeapWindow :=
  {| minimum_address_ := Z.min (minimum_address_ g) address;
     maximum_address_ :=
       Z.max (maximum_address_ g) (saturating_extend U64 address size);
     minimum_tick_ := Z.min (minimum_tick_ g) tick;
     maximum_tick_ := Z.max (maximum_tick_ g) (saturating_extend U32 tick 1) |}.

(** Modelled from the spec: [recordMalloc] is only declared.  It opens a
    new Block with the current tick as allocation tick and advances the
    counter; when the Live Index already holds an entry for
    (address, heap_id) the conflict is logged and the entry is overwritten
    with the position of the new block; the global area is extended. *)
Definition recordMalloc (address size : Z) (heap_id : Z) (h : HeapHistory)
  : HeapHistory :=
  let h1 := match live_blocks_ h !! (address, heap_id) with
            | Some _ => recordMallocConflict address size heap_id h
            | None => h
            end in
  let block := {| start_address := address; block_size := size;
                  block_heap_id := heap_id;
                  allocation_tick := current_tick_ h1; free_tick := None |} in
  with_log h1
    (wrap U32 (current_tick_ h1 + 1))
    (extend_global_area (global_area_ h1) address size (current_tick_ h1))
    (heap_blocks_ h1 ++ [block])
    (<[(address, heap_id) := length (heap_blocks_ h1)]> (live_blocks_ h1)).

Definition close_block (tick : Z) (b : HeapBlock) : HeapBlock :=
  {| start_address := start_address b; block_size := block_size b;
     block_heap_id := block_heap_id b;
     allocation_tick := allocation_tick b; free_tick := Some tick |}.

(** Modelled from the spec: [recordFree] is only declared.  Without a live
    entry the free conflict is logged and nothing else happens; with one,
    the block gets the current tick as free tick, the counter advances and
    the entry is removed. *)
Definition recordFree (address : Z) (heap_id : Z) (h : HeapHistory)
  : HeapHistory :=
  match live_blocks_ h !! (address, heap_id) with
  | None => recordFreeConflict address heap_id h
  | Some position =>
      with_log h
        (wrap U32 (current_tick_ h + 1))
        (global_area_ h)
        (alter (close_block (current_tick_ h)) position (heap_blocks_ h))
        (delete (address, heap_id) (live_blocks_ h))
  end.

(** Modelled from the spec: a free of [old_address] followed by a malloc of
    [new_address], each with its own tick. *)
Definition recordRealloc (old_address new_address size : Z) (heap_id : Z)
    (h : HeapHistory) : HeapHistory :=
  recordMalloc new_address size heap_id (recordFree old_address heap_id h).

(** ** The index sorted by address and the two point queries *)

(** The start address of the block at a position of the log. *)
Definition address_at (blocks : list HeapBlock) (position : nat) : Z :=
  match blocks !! position with
  | Some b => start_address b
  | None => 0
  end.

Definition by_address (blocks : list HeapBlock) : relation nat :=
  λ p q, address_at blocks p <= address_at blocks q.

#[global] Instance by_address_dec (blocks : list HeapBlock) :
  RelDecision (by_address blocks).
Proof. intros p q. unfold by_address. apply _. Defined.

(** Modelled from the spec: [updateCachedSortedIterators] is only
    declared.  The index is rebuilt from scratch: the positions of all
    blocks, ordered by start address. *)
Definition updateCachedSortedIterators (h : HeapHistory) : HeapHistory :=
  with_index h
    (merge_sort (by_address (heap_blocks_ h))
       (seq 0 (length (heap_blocks_ h)))).

(** Binary search in the sorted index for the first entry whose block starts
    above [address]; every step halves the interval [lo, hi). *)
Fixpoint upper_bound (fuel : nat) (blocks : list HeapBlock)
    (index : list nat) (address : Z) (lo hi : nat) : nat :=
  match fuel with
  | O => lo
  | S fuel' =>
      if decide (lo < hi)%nat then
        let mid := (lo + (hi - lo) / 2)%nat in
        match index !! mid with
        | Some p =>
            if decide (address_at blocks p <= address)
            then upper_bound fuel' blocks index address (S mid) hi
            else upper_bound fuel' blocks index address lo mid
        | None => lo
        end
      else lo
  end.

(** A candidate is a position of the log with the block found there. *)
Definition later_than (c best : nat * HeapBlock) : bool :=
  (allocation_tick best.2 <? allocation_tick c.2)
  || ((allocation_tick best.2 =? allocation_tick c.2) && (c.1 <? best.1)%nat).

(** A block that contains the query point replaces the best one so far
    when it was allocated later (the earlier position on equal ticks). *)
Definition choose (address tick : Z) (best : option (nat * HeapBlock))
    (position : nat) (b : HeapBlock) : option (nat * HeapBlock) :=
  if contains b address tick then
    match best with
    | Some c => if later_than (position, b) c then Some (position, b) else best
    | None => Some (position, b)
    end
  else best.

(** One step of the scan of the candidates of the index. *)
Definition scan_candidate (address tick : Z) (blocks : list HeapBlock)
    (best : option (nat * HeapBlock)) (position : nat)
  : option (nat * HeapBlock) :=
  match blocks !! position with
  | Some b => choose address tick best position b
  | None => best
  end.

(** The linear scan of the log, in the order of the log. *)
Fixpoint scan_log (address tick : Z) (blocks : list HeapBlock)
    (position : nat) (best : option (nat * HeapBlock))
  : option (nat * HeapBlock) :=
  match blocks with
  | [] => best
  | b :: rest =>
      scan_log address tick rest (S position)
        (if contains b address tick then
           match best with
           | Some c =>
               if allocation_tick c.2 <? allocation_tick b
               then Some (position, b) else best
           | None => Some (position, b)
           end
         else best)
  end.

(** The outputs [*result] and [*index] (a [uint32_t]) of a successful
    query; [None] is the return value [false]. *)
Definition found (r : option (nat * HeapBlock)) : option (HeapBlock * Z) :=
  (λ c, (c.2, wrap U32 (Z.of_nat c.1))) <$> r.

(** Modelled from the spec: [getBlockAtSlow] is only declared.  The
    reference linear scan; of the blocks that contain the query point, the
    one with the latest allocation tick. *)
Definition getBlockAtSlow (h : HeapHistory) (address tick : Z)
  : option (HeapBlock * Z) :=
  found (scan_log address tick (heap_blocks_ h) 0 None).

(** Modelled from the spec: [getBlockAt] is only declared.  Binary search
    in the sorted index to the entries that start at or below [address],
    then a scan of these candidates for the blocks whose range and
    lifetime cover the query point. *)
Definition getBlockAt (h : HeapHistory) (address tick : Z)
  : option (HeapBlock * Z) :=
  let index := cached_blocks_sorted_by_address_ h in
  let k := upper_bound (length index) (heap_blocks_ h) index address
             0 (length index) in
  found (foldl (scan_candidate address tick (heap_blocks_ h)) None
           (take k index)).

(** The answer the contract asks of a point query restricted to the
    positions in [P]: nothing when no block there contains the point, and
    otherwise the block with the latest allocation tick (the earliest
    position on equal ticks). *)
Definition best_in (P : nat → Prop) (blocks : list HeapBlock)
    (address tick : Z) (r : option (nat * HeapBlock)) : Prop :=
  match r with
  | None =>
      ∀ q b, P q → blocks !! q = Some b → contains b address tick = false
  | Some c =>
      P c.1 ∧ blocks !! c.1 = Some c.2 ∧ contains c.2 address tick = true ∧
      ∀ q b, P q → blocks !! q = Some b → contains b address tick = true →
        allocation_tick b < allocation_tick c.2
        ∨ (allocation_tick b = allocation_tick c.2 ∧ (c.1 <= q)%nat)
  end.

(* ================================================================== *)
(** * Properties *)

(** ** Windows *)

Lemma wrap_in_range (T : UIntType) (z : Z) : in_range T z → wrap T z = z.
Proof.
  unfold in_range, wrap, numeric_limits_max. intros Hz.
  apply Z.mod_small. lia.
Qed.

(** C8: with maximum >= minimum on both axes, height() and width() are the
    exact differences of the bounds, and both are non-negative: the
    unsigned subtraction does not wrap. *)
Theorem height_width_exact (w : HeapWindow) :
  HeapWindow_wf w →
  minimum_address_ w <= maximum_address_ w →
  minimum_tick_ w <= maximum_tick_ w →
  height w = maximum_address_ w - minimum_address_ w
  ∧ width w = maximum_tick_ w - minimum_tick_ w
  ∧ 0 <= height w ∧ 0 <= width w.
Proof.
  intros (Ha1 & Ha2 & Ht1 & Ht2) Ha Ht.
  assert (Hh : height w = maximum_address_ w - minimum_address_ w).
  { unfold height. apply wrap_in_range. unfold in_range in *. lia. }
  assert (Hw : width w = maximum_tick_ w - minimum_tick_ w).
  { unfold width. apply wrap_in_range. unfold in_range in *. lia. }
  rewrite Hh, Hw. lia.
Qed.

Lemma height_width_exact_witness :
  let w := {| minimum_address_ := 4096; maximum_address_ := 4112;
              minimum_tick_ := 0; maximum_tick_ := 1 |} in
  height w = 16 ∧ width w = 1 ∧ 0 <= height w ∧ 0 <= width w.
Proof.
  apply (height_width_exact
           {| minimum_address_ := 4096; maximum_address_ := 4112;
              minimum_tick_ := 0; maximum_tick_ := 1 |}).
  - vm_compute; repeat split; congruence.
  - vm_compute; congruence.
  - vm_compute; congruence.
Defined.

(** Without the invariant the subtraction wraps: the height of an inverted
    window is far from the (negative) difference of its bounds. *)
Example height_wraps_when_inverted :
  height {| minimum_address_ := 1; maximum_address_ := 0;
            minimum_tick_ := 0; maximum_tick_ := 0 |} = 2 ^ 64 - 1.
Proof. reflexivity. Qed.

(** C9: the two 32-bit halves of the minimum address recombine to the
    64-bit value. *)
Theorem minimum_address_halves_recombine (w : ContinuousHeapWindow) :
  in_range U64 (c_minimum_address_ w) →
  getMinimumAddressHigh32 w * 2 ^ 32 + getMinimumAddressLow32 w
  = getMinimumAddress w.
Proof.
  unfold in_range, numeric_limits_max, getMinimumAddressHigh32,
    getMinimumAddressLow32, getMinimumAddress, wrap.
  cbn [bits]. intros Hr.
  set (a := c_minimum_address_ w) in *.
  rewrite Z.shiftr_div_pow2 by lia.
  rewrite (Z.mod_small (a / 2 ^ 32)).
  - pose proof (Z.div_mod a (2 ^ 32) ltac:(lia)). lia.
  - split.
    + apply Z.div_pos; lia.
    + apply Z.div_lt_upper_bound; lia.
Qed.

Lemma minimum_address_halves_recombine_witness :
  let w := {| c_minimum_address_ := 0x7ffd12345678; c_maximum_address_ := 0;
              c_minimum_tick_ := 0; c_maximum_tick_ := 0;
              x_shift_ := 0%float; y_shift_ := 0%float |} in
  getMinimumAddressHigh32 w = 0x7ffd ∧ getMinimumAddressLow32 w = 0x12345678
  ∧ getMinimumAddressHigh32 w * 2 ^ 32 + getMinimumAddressLow32 w
    = getMinimumAddress w.
Proof.
  split; [reflexivity | split; [reflexivity |]].
  apply (minimum_address_halves_recombine
           {| c_minimum_address_ := 0x7ffd12345678; c_maximum_address_ := 0;
              c_minimum_tick_ := 0; c_maximum_tick_ := 0;
              x_shift_ := 0%float; y_shift_ := 0%float |}).
  vm_compute; split; congruence.
Defined.

(** C10: reset copies the four integer bounds of the source window and
    leaves x_shift_ and y_shift_ as they were; setCurrentWindowToGlobal is
    that reset of the current window from the global area and touches no
    other member of the history. *)
Theorem reset_keeps_shifts (h : HeapHistory) (this : ContinuousHeapWindow)
    (window : HeapWindow) :
  (x_shift_ (reset this window) = x_shift_ this
   ∧ y_shift_ (reset this window) = y_shift_ this
   ∧ c_minimum_address_ (reset this window) = minimum_address_ window
   ∧ c_maximum_address_ (reset this window) = maximum_address_ window
   ∧ c_minimum_tick_ (reset this window) = minimum_tick_ window
   ∧ c_maximum_tick_ (reset this window) = maximum_tick_ window)
  ∧ (current_window_ (setCurrentWindowToGlobal h)
       = reset (current_window_ h) (global_area_ h)
     ∧ x_shift_ (current_window_ (setCurrentWindowToGlobal h))
       = x_shift_ (current_window_ h)
     ∧ y_shift_ (current_window_ (setCurrentWindowToGlobal h))
       = y_shift_ (current_window_ h)
     ∧ global_area_ (setCurrentWindowToGlobal h) = global_area_ h
     ∧ grid_rectangle_ (setCurrentWindowToGlobal h) = grid_rectangle_ h
     ∧ heap_blocks_ (setCurrentWindowToGlobal h) = heap_blocks_ h
     ∧ live_blocks_ (setCurrentWindowToGlobal h) = live_blocks_ h
     ∧ conflicts_ (setCurrentWindowToGlobal h) = conflicts_ h
     ∧ current_tick_ (setCurrentWindowToGlobal h) = current_tick_ h
     ∧ cached_blocks_sorted_by_address_ (setCurrentWindowToGlobal h)
       = cached_blocks_sorted_by_address_ h).
Proof. repeat split. Qed.

(** ** Integers in binary64: conversions and sums are exact below 2^53 *)

Lemma digits2_pos_bounds (p : positive) :
  2 ^ (Zpos (digits2_pos p) - 1) <= Zpos p < 2 ^ Zpos (digits2_pos p).
Proof.
  induction p as [p IH|p IH|]; cbn [digits2_pos].
  - rewrite Pos2Z.inj_succ.
    replace (Z.succ (Zpos (digits2_pos p)) - 1)
      with (Z.succ (Zpos (digits2_pos p) - 1)) by lia.
    rewrite !Z.pow_succ_r by lia. lia.
  - rewrite Pos2Z.inj_succ.
    replace (Z.succ (Zpos (digits2_pos p)) - 1)
      with (Z.succ (Zpos (digits2_pos p) - 1)) by lia.
    rewrite !Z.pow_succ_r by lia. lia.
  - cbn. lia.
Qed.

Lemma digits2_pos_unique (p : positive) (d : Z) :
  2 ^ (d - 1) <= Zpos p < 2 ^ d → Zpos (digits2_pos p) = d.
Proof.
  intros [Hlo Hhi]. pose proof (digits2_pos_bounds p) as [Hlo' Hhi'].
  assert (0 < d).
  { destruct (Z.ltb_spec 0 d); [assumption |].
    destruct (Z.eqb_spec d 0) as [->|]; [cbn in Hhi; lia |].
    rewrite Z.pow_neg_r in Hhi by lia. lia. }
  destruct (Z.lt_trichotomy (Zpos (digits2_pos p)) d) as [Hlt|[Heq|Hgt]];
    [| exact Heq |].
  - assert (2 ^ Zpos (digits2_pos p) <= 2 ^ (d - 1))
      by (apply Z.pow_le_mono_r; lia).
    lia.
  - assert (2 ^ d <= 2 ^ (Zpos (digits2_pos p) - 1))
      by (apply Z.pow_le_mono_r; lia).
    lia.
Qed.

Lemma iter_xO_mul (p n : positive) :
  Zpos (Pos.iter xO p n) = Zpos p * 2 ^ Zpos n.
Proof.
  induction n as [|n IH] using Pos.peano_ind.
  - cbn. lia.
  - rewrite Pos.iter_succ, Pos2Z.inj_succ, Z.pow_succ_r by lia.
    rewrite Pos2Z.inj_xO, IH. lia.
Qed.

Lemma iter_pos_iter {A : Type} (f : A → A) (n : positive) (x : A) :
  SpecFloat.iter_pos f n x = Pos.iter f x n.
Proof.
  revert x. induction n as [n IH|n IH|]; intros x; cbn [SpecFloat.iter_pos Pos.iter].
  - rewrite !IH. rewrite Pos.iter_swap. rewrite Pos.iter_swap. reflexivity.
  - rewrite !IH. reflexivity.
  - reflexivity.
Qed.

Lemma shr_exact (q n : positive) :
  SpecFloat.iter_pos shr_1 n
    {| shr_m := Zpos (Pos.iter xO q n); shr_r := false; shr_s := false |}
  = {| shr_m := Zpos q; shr_r := false; shr_s := false |}.
Proof.
  rewrite iter_pos_iter.
  induction n as [|n IH] using Pos.peano_ind.
  - reflexivity.
  - rewrite Pos.iter_succ_r. rewrite (Pos.iter_succ n _ xO q).
    cbn [shr_1 orb]. exact IH.
Qed.

Lemma fexp_binary64 (e : Z) : -1021 <= e → fexp prec emax e = e - 53.
Proof. unfold fexp, SpecFloat.emin, prec, emax. lia. Qed.

(** A mantissa of 53 digits with a small exponent is a fixed point of the
    rounding. *)
Lemma binary_round_aux_exact (s : bool) (m : Z) (e : Z) (mz : positive) (e' : Z) :
  shr_fexp prec emax m e loc_Exact
  = ({| shr_m := Zpos mz; shr_r := false; shr_s := false |}, e') →
  Zpos (digits2_pos mz) = 53 → -1074 <= e' <= 971 →
  binary_round_aux prec emax s m e loc_Exact = S754_finite s mz e'.
Proof.
  intros Hshr Hd He. unfold binary_round_aux. rewrite Hshr.
  cbn [shr_m loc_of_shr_record round_nearest_even].
  unfold shr_fexp. cbn [Zdigits2]. rewrite Hd.
  rewrite fexp_binary64 by lia.
  replace (53 + e' - 53 - e') with 0 by lia.
  cbn [shr shr_record_of_loc shr_m].
  replace (e' <=? emax - prec) with true; [reflexivity |].
  symmetry. apply Z.leb_le. unfold emax, prec. lia.
Qed.

Lemma mantissa53_spec (p : positive) :
  Zpos (digits2_pos p) <= 53 →
  Zpos (mantissa53 p) = Zpos p * 2 ^ (53 - Zpos (digits2_pos p))
  ∧ Zpos (digits2_pos (mantissa53 p)) = 53.
Proof.
  intros Hd. set (d := Zpos (digits2_pos p)) in *.
  assert (Hm : Zpos (mantissa53 p) = Zpos p * 2 ^ (53 - d)).
  { unfold mantissa53, shl_align. fold d.
    destruct (d - 53 - 0) as [|n|n] eqn:Hn; cbn [fst]; try lia.
    - replace (53 - d) with 0 by lia. lia.
    - rewrite iter_xO_mul. f_equal. f_equal. lia. }
  split; [exact Hm |].
  apply digits2_pos_unique. rewrite Hm.
  pose proof (digits2_pos_bounds p) as [Hlo Hhi]. fold d in Hlo, Hhi.
  assert (0 < d) by (subst d; lia).
  assert (Hc : 0 < 2 ^ (53 - d)) by (apply Z.pow_pos_nonneg; lia).
  assert (H1 : 2 ^ (53 - 1) = 2 ^ (d - 1) * 2 ^ (53 - d)).
  { rewrite <- Z.pow_add_r by lia. f_equal. lia. }
  assert (H2 : 2 ^ 53 = 2 ^ d * 2 ^ (53 - d)).
  { rewrite <- Z.pow_add_r by lia. f_equal. lia. }
  rewrite H1, H2. nia.
Qed.

Lemma shr_fexp_53_digits (mz : positive) (e : Z) :
  Zpos (digits2_pos mz) = 53 → -1074 <= e →
  shr_fexp prec emax (Zpos mz) e loc_Exact
  = ({| shr_m := Zpos mz; shr_r := false; shr_s := false |}, e).
Proof.
  intros Hd He. unfold shr_fexp. cbn [Zdigits2]. rewrite Hd.
  rewrite fexp_binary64 by lia.
  replace (53 + e - 53 - e) with 0 by lia. reflexivity.
Qed.

(** Rounding an integer of at most 53 bits that comes shifted left by [j]
    bits, with the exponent [-j], gives its 53-digit form: nothing is lost. *)
Lemma binary_round_shifted (s : bool) (p q : positive) (j : Z) :
  Zpos (digits2_pos p) <= 53 → 0 <= j <= 1000 → Zpos q = Zpos p * 2 ^ j →
  binary_round prec emax s q (- j)
  = S754_finite s (mantissa53 p) (Zpos (digits2_pos p) - 53).
Proof.
  intros Hd Hj Hq.
  destruct (mantissa53_spec p Hd) as [Hm Hmd].
  set (d := Zpos (digits2_pos p)) in *.
  assert (0 < d) by (subst d; lia).
  assert (Hpow : ∀ a b, 0 <= a → 0 <= b → 2 ^ (a + b) = 2 ^ a * 2 ^ b)
    by (intros; apply Z.pow_add_r; lia).
  assert (Hdq : Zpos (digits2_pos q) = d + j).
  { apply digits2_pos_unique. rewrite Hq.
    pose proof (digits2_pos_bounds p) as [Hlo Hhi]. fold d in Hlo, Hhi.
    replace (d + j - 1) with ((d - 1) + j) by lia.
    rewrite !Hpow by lia.
    assert (0 < 2 ^ j) by (apply Z.pow_pos_nonneg; lia). nia. }
  unfold binary_round. rewrite Hdq.
  replace (d + j + - j) with d by lia.
  rewrite fexp_binary64 by lia.
  unfold shl_align.
  destruct (d - 53 - - j) as [|n|n] eqn:Hn.
  - (* the mantissa has 53 digits already *)
    assert (q = mantissa53 p) as ->.
    { apply Pos2Z.inj. rewrite Hq, Hm. f_equal. f_equal. lia. }
    apply binary_round_aux_exact; [| exact Hmd | lia].
    rewrite shr_fexp_53_digits by (exact Hmd || lia).
    f_equal. lia.
  - (* more than 53 digits: the low zero bits are shifted out *)
    assert (q = Pos.iter xO (mantissa53 p) n) as ->.
    { apply Pos2Z.inj. rewrite Hq, iter_xO_mul, Hm.
      rewrite <- Z.mul_assoc, <- Hpow by lia. f_equal. f_equal. lia. }
    apply binary_round_aux_exact; [| exact Hmd | lia].
    unfold shr_fexp. cbn [Zdigits2]. rewrite Hdq.
    replace (d + j + - j) with d by lia.
    rewrite fexp_binary64 by lia. rewrite Hn.
    cbn [shr shr_record_of_loc]. rewrite shr_exact.
    f_equal. lia.
  - (* fewer than 53 digits: the mantissa is shifted left *)
    assert (Pos.iter xO q n = mantissa53 p) as ->.
    { apply Pos2Z.inj. rewrite iter_xO_mul, Hq, Hm.
      rewrite <- Z.mul_assoc, <- Hpow by lia. f_equal. f_equal. lia. }
    apply binary_round_aux_exact; [| exact Hmd | lia].
    apply shr_fexp_53_digits; [exact Hmd | lia].
Qed.

Lemma digits2_pos_le_53 (p : positive) :
  Zpos p < 2 ^ 53 → Zpos (digits2_pos p) <= 53.
Proof.
  intros Hp. pose proof (digits2_pos_bounds p) as [Hlo _].
  destruct (Z.le_gt_cases (Zpos (digits2_pos p)) 53) as [|Hgt]; [assumption |].
  assert (2 ^ 53 <= 2 ^ (Zpos (digits2_pos p) - 1))
    by (apply Z.pow_le_mono_r; lia).
  lia.
Qed.

Lemma binary_normalize_canonical (z : Z) :
  Z.abs z < 2 ^ 53 → binary_normalize prec emax z 0 false = canonical z.
Proof.
  intros Hz. destruct z as [|p|p]; cbn [binary_normalize canonical].
  - reflexivity.
  - apply (binary_round_shifted false p p 0); [apply digits2_pos_le_53 | |]; lia.
  - apply (binary_round_shifted true p p 0); [apply digits2_pos_le_53 | |]; lia.
Qed.

Lemma canonical_valid (z : Z) :
  Z.abs z < 2 ^ 53 → valid_binary (canonical z) = true.
Proof.
  intros Hz.
  assert (Hfin : ∀ s p, Zpos p < 2 ^ 53 →
            valid_binary
              (S754_finite s (mantissa53 p) (Zpos (digits2_pos p) - 53))
            = true).
  { intros s p Hp. pose proof (digits2_pos_le_53 p Hp) as Hd.
    destruct (mantissa53_spec p Hd) as [_ Hmd].
    cbn [SpecFloat.valid_binary]. unfold bounded, canonical_mantissa.
    rewrite Hmd. rewrite fexp_binary64 by lia.
    apply andb_true_intro. split.
    - apply Z.eqb_eq. lia.
    - apply Z.leb_le. unfold emax, prec. lia. }
  destruct z as [|p|p]; cbn [canonical]; [reflexivity | |]; apply Hfin; lia.
Qed.

Lemma Prim2SF_Z_to_double (z : Z) :
  Z.abs z < 2 ^ 53 → Prim2SF (Z_to_double z) = canonical z.
Proof.
  intros Hz. unfold Z_to_double.
  rewrite binary_normalize_canonical by exact Hz.
  apply Prim2SF_SF2Prim, canonical_valid, Hz.
Qed.

Lemma truncate_Z_to_double (z : Z) :
  Z.abs z < 2 ^ 53 → truncate (Z_to_double z) = Some z.
Proof.
  intros Hz. unfold truncate. rewrite Prim2SF_Z_to_double by exact Hz.
  assert (Hfin : ∀ p, Zpos p < 2 ^ 53 →
            integer_part (mantissa53 p) (Zpos (digits2_pos p) - 53) = Zpos p).
  { intros p Hp. pose proof (digits2_pos_le_53 p Hp) as Hd.
    destruct (mantissa53_spec p Hd) as [Hm _]. unfold integer_part.
    destruct (Zpos (digits2_pos p) - 53) as [|k|k] eqn:He; try lia.
    - rewrite Z.shiftl_0_r, Hm. replace (53 - Zpos (digits2_pos p)) with 0 by lia. lia.
    - rewrite Z.shiftr_div_pow2 by lia. rewrite Hm.
      replace (53 - Zpos (digits2_pos p)) with (Zpos k) by lia.
      apply Z.div_mul. apply Z.pow_nonzero; lia. }
  destruct z as [|p|p]; cbn [canonical]; [reflexivity | |].
  - rewrite Hfin by lia. reflexivity.
  - rewrite Hfin by lia. reflexivity.
Qed.

(** An integer of at most 53 bits that is a value of [T] survives the
    conversion to [double] and back. *)
Lemma double_to_uint_Z_to_double (T : UIntType) (z : Z) :
  in_range T z → z < 2 ^ 53 → double_to_uint T (Z_to_double z) = Some z.
Proof.
  intros [Hlo Hhi] Hz. unfold double_to_uint.
  rewrite truncate_Z_to_double by lia.
  replace ((0 <=? z) && (z <=? numeric_limits_max T)) with true; [reflexivity |].
  symmetry. apply andb_true_intro. split; apply Z.leb_le; assumption.
Qed.

Lemma shl_align_canonical (p : positive) (ez : Z) :
  Zpos (digits2_pos p) <= 53 → -52 <= ez <= Zpos (digits2_pos p) - 53 →
  Zpos (fst (shl_align (mantissa53 p) (Zpos (digits2_pos p) - 53) ez))
  = Zpos p * 2 ^ (- ez).
Proof.
  intros Hd He. destruct (mantissa53_spec p Hd) as [Hm _].
  unfold shl_align.
  destruct (ez - (Zpos (digits2_pos p) - 53)) as [|n|n] eqn:Hn; cbn [fst]; try lia.
  - rewrite Hm. f_equal. f_equal. lia.
  - rewrite iter_xO_mul, Hm. rewrite <- Z.mul_assoc, <- Z.pow_add_r by lia.
    f_equal. f_equal. lia.
Qed.

Lemma canonical_exponent_range (p : positive) :
  Zpos p < 2 ^ 53 → -52 <= Zpos (digits2_pos p) - 53 <= 0.
Proof. intros Hp. pose proof (digits2_pos_le_53 p Hp). lia. Qed.

(** The same for a signed integer, through [binary_normalize]. *)
Lemma binary_normalize_shifted (k : Z) (j : Z) :
  Z.abs k < 2 ^ 53 → 0 <= j <= 1000 →
  binary_normalize prec emax (k * 2 ^ j) (- j) false = canonical k.
Proof.
  intros Hk Hj.
  assert (Hpos : 0 < 2 ^ j) by (apply Z.pow_pos_nonneg; lia).
  destruct k as [|p|p].
  - reflexivity.
  - destruct (Zpos p * 2 ^ j) as [|q|q] eqn:Hq; try lia.
    cbn [binary_normalize canonical].
    apply binary_round_shifted; [apply digits2_pos_le_53; lia | lia | lia].
  - destruct (Zneg p * 2 ^ j) as [|q|q] eqn:Hq; try lia.
    cbn [binary_normalize canonical].
    apply binary_round_shifted; [apply digits2_pos_le_53; lia | lia | lia].
Qed.

(** The sum of two integers in binary64 is exact while the operands and the
    result have at most 53 bits. *)
Lemma SFadd_canonical (a b : Z) :
  Z.abs a < 2 ^ 53 → Z.abs b < 2 ^ 53 → Z.abs (a + b) < 2 ^ 53 →
  SF64add (canonical a) (canonical b) = canonical (a + b).
Proof.
  intros Ha Hb Hab.
  assert (Hfin : ∀ (sa sb : bool) (pa pb : positive),
            Zpos pa < 2 ^ 53 → Zpos pb < 2 ^ 53 →
            Z.abs (cond_Zopp sa (Zpos pa) + cond_Zopp sb (Zpos pb)) < 2 ^ 53 →
            SF64add (S754_finite sa (mantissa53 pa) (Zpos (digits2_pos pa) - 53))
                    (S754_finite sb (mantissa53 pb) (Zpos (digits2_pos pb) - 53))
            = canonical (cond_Zopp sa (Zpos pa) + cond_Zopp sb (Zpos pb))).
  { intros sa sb pa pb Hpa Hpb Hsum.
    pose proof (canonical_exponent_range pa Hpa) as Hea.
    pose proof (canonical_exponent_range pb Hpb) as Heb.
    unfold SF64add, SFadd.
    set (ez := Z.min (Zpos (digits2_pos pa) - 53) (Zpos (digits2_pos pb) - 53)).
    cbv zeta.
    rewrite !shl_align_canonical by (apply digits2_pos_le_53 || idtac; lia).
    replace (cond_Zopp sa (Zpos pa * 2 ^ (- ez)) + cond_Zopp sb (Zpos pb * 2 ^ (- ez)))
      with ((cond_Zopp sa (Zpos pa) + cond_Zopp sb (Zpos pb)) * 2 ^ (- ez))
      by (destruct sa, sb; cbn [cond_Zopp]; lia).
    replace ez with (- - ez) at 2 by lia.
    apply binary_normalize_shifted; [exact Hsum | lia]. }
  destruct a as [|pa|pa], b as [|pb|pb]; try reflexivity.
  - apply (Hfin false false pa pb); cbn [cond_Zopp]; lia.
  - apply (Hfin false true pa pb); cbn [cond_Zopp]; lia.
  - apply (Hfin true false pa pb); cbn [cond_Zopp]; lia.
  - apply (Hfin true true pa pb); cbn [cond_Zopp]; lia.
Qed.

Lemma add_Z_to_double (a b : Z) :
  Z.abs a < 2 ^ 53 → Z.abs b < 2 ^ 53 → Z.abs (a + b) < 2 ^ 53 →
  (Z_to_double a + Z_to_double b)%float = Z_to_double (a + b).
Proof.
  intros Ha Hb Hab. apply Prim2SF_inj.
  rewrite add_spec, !Prim2SF_Z_to_double by assumption.
  apply SFadd_canonical; assumption.
Qed.

Lemma opp_Z_to_double (k : Z) :
  k ≠ 0 → Z.abs k < 2 ^ 53 → (- Z_to_double k)%float = Z_to_double (- k).
Proof.
  intros Hk Hb. apply Prim2SF_inj.
  rewrite opp_spec, !Prim2SF_Z_to_double by lia.
  destruct k; [contradiction | reflexivity | reflexivity].
Qed.

Lemma add_neg_zero (r : Z) :
  Z.abs r < 2 ^ 53 → (Z_to_double r + neg_zero)%float = Z_to_double r.
Proof.
  intros Hr. apply Prim2SF_inj.
  rewrite add_spec, Prim2SF_Z_to_double by exact Hr.
  change (Prim2SF neg_zero) with (S754_zero true).
  destruct r; reflexivity.
Qed.

(** Adding the negation of an integer-valued [double]. *)
Lemma add_opp_Z_to_double (r k : Z) :
  Z.abs r < 2 ^ 53 → Z.abs k < 2 ^ 53 → Z.abs (r - k) < 2 ^ 53 →
  (Z_to_double r + - Z_to_double k)%float = Z_to_double (r - k).
Proof.
  intros Hr Hk Hrk. destruct (Z.eq_dec k 0) as [->|Hne].
  - change (- Z_to_double 0)%float with neg_zero.
    rewrite add_neg_zero by exact Hr. f_equal. lia.
  - rewrite opp_Z_to_double by assumption.
    replace (r - k) with (r + - k) by lia.
    apply add_Z_to_double; [exact Hr | lia | ].
    replace (r + - k) with (r - k) by lia. exact Hrk.
Qed.

(** The difference of two integers in binary64 is exact on the same
    terms. *)
Lemma SFsub_canonical (a b : Z) :
  Z.abs a < 2 ^ 53 → Z.abs b < 2 ^ 53 → Z.abs (a - b) < 2 ^ 53 →
  SF64sub (canonical a) (canonical b) = canonical (a - b).
Proof.
  intros Ha Hb Hab.
  assert (Hfin : ∀ (sa sb : bool) (pa pb : positive),
            Zpos pa < 2 ^ 53 → Zpos pb < 2 ^ 53 →
            Z.abs (cond_Zopp sa (Zpos pa) - cond_Zopp sb (Zpos pb)) < 2 ^ 53 →
            SF64sub (S754_finite sa (mantissa53 pa) (Zpos (digits2_pos pa) - 53))
                    (S754_finite sb (mantissa53 pb) (Zpos (digits2_pos pb) - 53))
            = canonical (cond_Zopp sa (Zpos pa) - cond_Zopp sb (Zpos pb))).
  { intros sa sb pa pb Hpa Hpb Hdiff.
    pose proof (canonical_exponent_range pa Hpa) as Hea.
    pose proof (canonical_exponent_range pb Hpb) as Heb.
    unfold SF64sub, SFsub.
    set (ez := Z.min (Zpos (digits2_pos pa) - 53) (Zpos (digits2_pos pb) - 53)).
    cbv zeta.
    rewrite !shl_align_canonical by (apply digits2_pos_le_53 || idtac; lia).
    replace (cond_Zopp sa (Zpos pa * 2 ^ (- ez))
             - cond_Zopp sb (Zpos pb * 2 ^ (- ez)))
      with ((cond_Zopp sa (Zpos pa) - cond_Zopp sb (Zpos pb)) * 2 ^ (- ez))
      by (destruct sa, sb; cbn [cond_Zopp]; lia).
    replace ez with (- - ez) at 2 by lia.
    apply binary_normalize_shifted; [exact Hdiff | lia]. }
  destruct a as [|pa|pa], b as [|pb|pb]; try reflexivity.
  - apply (Hfin false false pa pb); cbn [cond_Zopp]; lia.
  - apply (Hfin false true pa pb); cbn [cond_Zopp]; lia.
  - apply (Hfin true false pa pb); cbn [cond_Zopp]; lia.
  - apply (Hfin true true pa pb); cbn [cond_Zopp]; lia.
Qed.

Lemma sub_Z_to_double (a b : Z) :
  Z.abs a < 2 ^ 53 → Z.abs b < 2 ^ 53 → Z.abs (a - b) < 2 ^ 53 →
  (Z_to_double a - Z_to_double b)%float = Z_to_double (a - b).
Proof.
  intros Ha Hb Hab. apply Prim2SF_inj.
  rewrite sub_spec, !Prim2SF_Z_to_double by assumption.
  apply SFsub_canonical; assumption.
Qed.

(** *** Comparisons *)

Lemma SFcompare_canonical (a b : Z) :
  0 <= a < 2 ^ 53 → 0 <= b < 2 ^ 53 →
  SFcompare (canonical a) (canonical b) = Some (a ?= b).
Proof.
  intros Ha Hb.
  destruct a as [|pa|pa], b as [|pb|pb]; try lia; try reflexivity.
  cbn [canonical SFcompare].
  pose proof (digits2_pos_le_53 pa ltac:(lia)) as Hda.
  pose proof (digits2_pos_le_53 pb ltac:(lia)) as Hdb.
  destruct (mantissa53_spec pa Hda) as [Hma _].
  destruct (mantissa53_spec pb Hdb) as [Hmb _].
  pose proof (digits2_pos_bounds pa) as [Hla Hua].
  pose proof (digits2_pos_bounds pb) as [Hlb Hub].
  set (da := Zpos (digits2_pos pa)) in *.
  set (db := Zpos (digits2_pos pb)) in *.
  f_equal. symmetry.
  destruct (Z.compare_spec (da - 53) (db - 53)) as [Heq|Hlt|Hgt].
  - assert (da = db) as Hd by lia.
    change (Pos.compare_cont Eq (mantissa53 pa) (mantissa53 pb))
      with (Zpos (mantissa53 pa) ?= Zpos (mantissa53 pb)).
    rewrite Hma, Hmb, Hd.
    assert (0 < 2 ^ (53 - db)) by (apply Z.pow_pos_nonneg; lia).
    destruct (Z.compare_spec (Zpos pa) (Zpos pb)) as [E|E|E]; symmetry;
      [rewrite E; apply Z.compare_refl | apply Z.compare_lt_iff; nia
      | apply Z.compare_gt_iff; nia].
  - apply Z.compare_lt_iff.
    assert (2 ^ da <= 2 ^ (db - 1)) by (apply Z.pow_le_mono_r; lia). lia.
  - apply Z.compare_gt_iff.
    assert (2 ^ db <= 2 ^ (da - 1)) by (apply Z.pow_le_mono_r; lia). lia.
Qed.

Lemma ltb_Z_to_double (a b : Z) :
  0 <= a < 2 ^ 53 → 0 <= b < 2 ^ 53 →
  (Z_to_double a <? Z_to_double b)%float = (a <? b).
Proof.
  intros Ha Hb. rewrite FloatAxioms.ltb_spec, !Prim2SF_Z_to_double by lia.
  unfold SFltb. rewrite SFcompare_canonical by assumption.
  unfold Z.ltb. destruct (a ?= b); reflexivity.
Qed.

Lemma zero_ltb_Z_to_double (k : Z) :
  Z.abs k < 2 ^ 53 → (0 <? Z_to_double k)%float = (0 <? k).
Proof.
  intros Hk. rewrite FloatAxioms.ltb_spec, Prim2SF_Z_to_double by exact Hk.
  destruct k; reflexivity.
Qed.

Lemma Z_to_double_ltb_zero (k : Z) :
  Z.abs k < 2 ^ 53 → (Z_to_double k <? 0)%float = (k <? 0).
Proof.
  intros Hk. rewrite FloatAxioms.ltb_spec, Prim2SF_Z_to_double by exact Hk.
  destruct k; reflexivity.
Qed.

Lemma abs_Z_to_double (k : Z) :
  Z.abs k < 2 ^ 53 → abs (Z_to_double k) = Z_to_double (Z.abs k).
Proof.
  intros Hk. apply Prim2SF_inj.
  rewrite abs_spec, !Prim2SF_Z_to_double by lia.
  destruct k; reflexivity.
Qed.

(** *** Integers of more than 53 bits *)

Lemma shr_1_halves (mrs : shr_record) :
  0 <= shr_m mrs → shr_m (shr_1 mrs) = shr_m mrs / 2.
Proof.
  destruct mrs as [m r s]. cbn [shr_m]. intros Hm.
  destruct m as [|[p|p|]|p]; cbn [shr_1 shr_m orb]; try lia.
  - reflexivity.
  - apply Z.div_unique with (r := 1); lia.
  - apply Z.div_unique with (r := 0); lia.
  - reflexivity.
Qed.

Lemma shr_m_iter (n : positive) (mrs : shr_record) :
  0 <= shr_m mrs →
  shr_m (SpecFloat.iter_pos shr_1 n mrs) = shr_m mrs / 2 ^ Zpos n.
Proof.
  rewrite iter_pos_iter. revert mrs.
  induction n as [|n IH] using Pos.peano_ind; intros mrs Hm.
  - cbn [Pos.iter]. rewrite shr_1_halves by exact Hm. reflexivity.
  - rewrite Pos.iter_succ, shr_1_halves.
    + rewrite IH by exact Hm.
      rewrite Pos2Z.inj_succ, Z.pow_succ_r by lia.
      rewrite Z.div_div by (try apply Z.pow_pos_nonneg; lia).
      f_equal. lia.
    + rewrite IH by exact Hm. apply Z.div_pos; [exact Hm |].
      apply Z.pow_pos_nonneg; lia.
Qed.

Lemma round_nearest_even_range (m : Z) (l : location) :
  m <= round_nearest_even m l <= m + 1.
Proof.
  destruct l as [|[| |]]; cbn [round_nearest_even]; try lia.
  destruct (Z.even m); lia.
Qed.

(** The binary64 value nearest to an integer of 54 to 64 bits is a valid
    finite number with a positive exponent. *)
Lemma binary_normalize_large (z : Z) :
  2 ^ 53 <= z < 2 ^ 64 →
  ∃ m e, binary_normalize prec emax z 0 false = S754_finite false m e
         ∧ 1 <= e ∧ valid_binary (S754_finite false m e) = true.
Proof.
  intros Hz. destruct z as [|p|p]; try lia.
  pose proof (digits2_pos_bounds p) as [Hlo Hhi].
  set (d := Zpos (digits2_pos p)) in *.
  assert (Hd : 54 <= d <= 64).
  { split.
    - destruct (Z.le_gt_cases 54 d); [assumption |].
      assert (2 ^ d <= 2 ^ 53) by (apply Z.pow_le_mono_r; lia). lia.
    - destruct (Z.le_gt_cases d 64); [assumption |].
      assert (2 ^ 64 <= 2 ^ (d - 1)) by (apply Z.pow_le_mono_r; lia). lia. }
  cbn [binary_normalize]. unfold binary_round. fold d.
  rewrite Z.add_0_r, fexp_binary64 by lia.
  unfold shl_align.
  destruct (d - 53 - 0) as [|n|n] eqn:Hn; try lia.
  unfold binary_round_aux, shr_fexp at 1. cbn [Zdigits2]. fold d.
  rewrite Z.add_0_r, fexp_binary64, Hn by lia.
  cbn [shr shr_record_of_loc]. change (0 + Zpos n) with (Zpos n).
  set (mrs := SpecFloat.iter_pos shr_1 n _).
  assert (Hm : shr_m mrs = Zpos p / 2 ^ Zpos n).
  { subst mrs. rewrite shr_m_iter; cbn [shr_m]; [reflexivity | lia]. }
  assert (Hrange : 2 ^ 52 <= shr_m mrs < 2 ^ 53).
  { rewrite Hm. assert (Hpn : 0 < 2 ^ Zpos n) by (apply Z.pow_pos_nonneg; lia).
    assert (H52 : 2 ^ (d - 1) = 2 ^ 52 * 2 ^ Zpos n).
    { rewrite <- Z.pow_add_r by lia. f_equal. lia. }
    assert (H53 : 2 ^ d = 2 ^ 53 * 2 ^ Zpos n).
    { rewrite <- Z.pow_add_r by lia. f_equal. lia. }
    split.
    - apply Z.div_le_lower_bound; lia.
    - apply Z.div_lt_upper_bound; lia. }
  pose proof (round_nearest_even_range (shr_m mrs) (loc_of_shr_record mrs)) as Hr.
  set (m1 := round_nearest_even (shr_m mrs) (loc_of_shr_record mrs)) in *.
  destruct m1 as [|q|q] eqn:Hm1; try lia.
  destruct (Z.eq_dec (Zpos q) (2 ^ 53)) as [Htop|Hbelow].
  - (* the rounding carried into a 54th digit *)
    assert (Hq : Zpos (digits2_pos q) = 54).
    { apply digits2_pos_unique. rewrite Htop. change (54 - 1) with 53.
      split; [lia | reflexivity]. }
    unfold shr_fexp. cbn [Zdigits2]. rewrite Hq.
    rewrite fexp_binary64 by lia.
    replace (54 + Zpos n - 53 - Zpos n) with 1 by lia.
    cbn [shr shr_record_of_loc SpecFloat.iter_pos].
    pose proof (shr_1_halves {| shr_m := Zpos q; shr_r := false; shr_s := false |}
                  ltac:(cbn; lia)) as Hhalf.
    cbn [shr_m] in Hhalf.
    destruct (shr_m (shr_1 {| shr_m := Zpos q; shr_r := false; shr_s := false |}))
      as [|q'|q'] eqn:Hq';
      rewrite Htop in Hhalf; change (2 ^ 53 / 2) with (2 ^ 52) in Hhalf;
      try (exfalso; lia).
    assert (Hd' : Zpos (digits2_pos q') = 53).
    { apply digits2_pos_unique. rewrite Hhalf. change (53 - 1) with 52.
      split; [lia | reflexivity]. }
    exists q', (Zpos n + 1). split; [| split; [lia |]].
    + replace (Zpos n + 1 <=? emax - prec) with true; [reflexivity |].
      symmetry. apply Z.leb_le. unfold emax, prec. lia.
    + cbn [SpecFloat.valid_binary]. unfold bounded, canonical_mantissa.
      rewrite Hd', fexp_binary64 by lia.
      apply andb_true_intro.
      split; [apply Z.eqb_eq | apply Z.leb_le; unfold emax, prec]; lia.
  - assert (Hq : Zpos (digits2_pos q) = 53).
    { apply digits2_pos_unique. change (53 - 1) with 52. lia. }
    exists q, (Zpos n). split; [| split; [lia |]].
    + rewrite shr_fexp_53_digits by (exact Hq || lia).
      cbn [shr_m].
      replace (Zpos n <=? emax - prec) with true; [reflexivity |].
      symmetry. apply Z.leb_le. unfold emax, prec. lia.
    + cbn [SpecFloat.valid_binary]. unfold bounded, canonical_mantissa.
      rewrite Hq, fexp_binary64 by lia.
      apply andb_true_intro.
      split; [apply Z.eqb_eq | apply Z.leb_le; unfold emax, prec]; lia.
Qed.

(** An integer of more than 53 bits is not below one of at most 53 bits,
    as [double]s. *)
Lemma large_not_ltb (z k : Z) :
  2 ^ 53 <= z < 2 ^ 64 → Z.abs k < 2 ^ 53 →
  (Z_to_double z <? Z_to_double k)%float = false.
Proof.
  intros Hz Hk. rewrite FloatAxioms.ltb_spec, (Prim2SF_Z_to_double k) by exact Hk.
  destruct (binary_normalize_large z Hz) as (m & e & Hn & He & Hv).
  unfold Z_to_double. rewrite Hn, (Prim2SF_SF2Prim _ Hv).
  destruct k as [|p|p]; cbn [canonical]; try reflexivity.
  unfold SFltb, SFcompare.
  pose proof (canonical_exponent_range p ltac:(lia)) as Hp.
  destruct (Z.compare_spec e (Zpos (digits2_pos p) - 53)); try reflexivity; lia.
Qed.

(** ** Saturating arithmetic *)

(** The three outcomes of saturatingAddition on a 32-bit bound: clamp at
    the maximum, clamp at 0, and the plain sum. *)
Example saturatingAddition_uint32_cases :
  saturatingAddition U32 5%float (2 ^ 32 - 3) = Returns (1, 2 ^ 32 - 1)
  ∧ saturatingAddition U32 (-11)%float 10 = Returns (-1, 0)
  ∧ saturatingAddition U32 2%float (2 ^ 32 - 3) = Returns (0, 2 ^ 32 - 1)
  ∧ saturatingAddition U32 (-10)%float 10 = Returns (0, 0).
Proof. vm_compute. repeat split. Qed.

(** The sum is stored with its fractional part discarded: half a unit up is
    lost, half a unit down costs a whole unit. *)
Example saturatingAddition_truncates :
  saturatingAddition U32 0.5%float 10 = Returns (0, 10)
  ∧ saturatingAddition U32 (-0.5)%float 10 = Returns (0, 9).
Proof. vm_compute. repeat split. Qed.

(** C2: on a 64-bit bound the sum goes through [double] and is not exact.
    Adding 1 to 2^53 + 1 stores 2^53 with code 0; adding 0 to the maximum,
    or 1 to the maximum - 1, passes both saturation tests and converts
    2^64 to [uint64_t], which is not a value of the type; a NaN passes
    both tests as well. *)
Theorem saturatingAddition_uint64_inexact :
  saturatingAddition U64 1%float (2 ^ 53 + 1) = Returns (0, 2 ^ 53)
  ∧ saturatingAddition U64 0%float (2 ^ 64 - 1)
    = Undef UnrepresentableConversion
  ∧ saturatingAddition U64 1%float (2 ^ 64 - 2)
    = Undef UnrepresentableConversion
  ∧ saturatingAddition U32 nan 5 = Undef UnrepresentableConversion.
Proof. vm_compute. repeat split. Qed.

(** saturatedAdd within its limits on a 32-bit value. *)
Example saturatedAdd_uint32_cases :
  saturatedAdd U32 5 3%float 10 0 = Returns 8
  ∧ saturatedAdd U32 5 7%float 10 0 = Returns 10
  ∧ saturatedAdd U32 5 (-7)%float 10 2 = Returns 2
  ∧ saturatedAdd U32 5 (-2.5)%float 10 2 = Returns 2.
Proof. vm_compute. repeat split. Qed.

(** With an addend that compares equal to 0 (either zero), saturatedAdd
    reaches the end of its body without a return, whatever the value and
    the limits. *)
Lemma saturatedAdd_zero_addend (T : UIntType) (value : Z) (addend : double)
    (upperlimit lowerlimit : Z) :
  (addend =? 0)%float = true →
  saturatedAdd T value addend upperlimit lowerlimit = Undef FlowsOffEnd.
Proof.
  intros Hzero. unfold saturatedAdd.
  rewrite FloatAxioms.eqb_spec in Hzero. rewrite !FloatAxioms.ltb_spec.
  change (Prim2SF 0) with (S754_zero false) in *.
  destruct (Prim2SF addend) as [s|s| |s m e]; cbn in Hzero |- *;
    try discriminate; try reflexivity.
  all: destruct s; discriminate.
Qed.

Lemma saturatedAdd_zero_addend_witness :
  saturatedAdd U32 5 0%float 10 0 = Undef FlowsOffEnd
  ∧ saturatedAdd U64 5 (-0)%float 10 0 = Undef FlowsOffEnd.
Proof.
  split.
  - apply (saturatedAdd_zero_addend U32 5 0%float 10 0). reflexivity.
  - apply (saturatedAdd_zero_addend U64 5 (-0)%float 10 0). reflexivity.
Defined.

(** C7: an addend other than 0 does not yet give a value within the limits.
    A NaN is different from 0 and reaches the end of the body like 0 does;
    on 64-bit values the sum goes through [double]: 1 added to 2^53 + 1
    with limits [2^53 + 1, 2^53 + 3] returns 2^53, below the lower limit,
    and 1 added to the maximum - 1 converts 2^64 to [uint64_t]. *)
Theorem saturatedAdd_outside_limits :
  saturatedAdd U32 5 nan 10 0 = Undef FlowsOffEnd
  ∧ saturatedAdd U64 (2 ^ 53 + 1) 1%float (2 ^ 53 + 3) (2 ^ 53 + 1)
    = Returns (2 ^ 53)
  ∧ saturatedAdd U64 (2 ^ 64 - 2) 1%float (2 ^ 64 - 1) 0
    = Undef UnrepresentableConversion.
Proof. vm_compute. repeat split. Qed.

(** *** saturatingAddition on whole numbers *)

(** For a stored value and a whole-number delta that fit in 53 bits,
    saturatingAddition is the clamped integer sum: code 1 and the maximum
    when the sum passes the maximum, code -1 and 0 when it falls below 0,
    code 0 and the sum otherwise. *)
Lemma saturatingAddition_integral (T : UIntType) (r k : Z) :
  in_range T r → r < 2 ^ 53 → Z.abs k < 2 ^ 53 → Z.abs (r + k) < 2 ^ 53 →
  saturatingAddition T (Z_to_double k) r
  = if (0 <? k) && (numeric_limits_max T - r <? k)
    then Returns (1, numeric_limits_max T)
    else if (k <? 0) && (r <? - k) then Returns (-1, 0)
    else Returns (0, r + k).
Proof.
  intros Hr Hr53 Hk Hsum. unfold saturatingAddition.
  assert (Hmax : in_range T (numeric_limits_max T - r))
    by (unfold in_range in *; lia).
  rewrite (wrap_in_range _ _ Hmax).
  rewrite zero_ltb_Z_to_double, Z_to_double_ltb_zero, abs_Z_to_double by exact Hk.
  assert (Hover : (0 <? k) && (uint_to_double (numeric_limits_max T - r)
                                <? Z_to_double k)%float
                  = (0 <? k) && (numeric_limits_max T - r <? k)).
  { destruct (Z.ltb_spec 0 k) as [Hpos|]; [cbn [andb] | reflexivity].
    unfold in_range, numeric_limits_max in *. unfold uint_to_double.
    destruct T; cbn [bits] in *.
    - apply ltb_Z_to_double; lia.
    - rewrite large_not_ltb by lia. symmetry. apply Z.ltb_ge. lia. }
  assert (Hunder : (k <? 0) && (uint_to_double r <? Z_to_double (Z.abs k))%float
                   = (k <? 0) && (r <? - k)).
  { destruct (Z.ltb_spec k 0) as [Hneg|]; [cbn [andb] | reflexivity].
    unfold uint_to_double, in_range in *.
    rewrite ltb_Z_to_double by lia. f_equal. lia. }
  rewrite Hover, Hunder.
  destruct ((0 <? k) && (numeric_limits_max T - r <? k)) eqn:Hc1; [reflexivity |].
  destruct ((k <? 0) && (r <? - k)) eqn:Hc2; [reflexivity |].
  unfold uint_to_double. rewrite add_Z_to_double by (unfold in_range in *; lia).
  rewrite double_to_uint_Z_to_double; [reflexivity | | lia].
  apply andb_false_iff in Hc1, Hc2. unfold in_range in *.
  destruct Hc1 as [Hc1|Hc1], Hc2 as [Hc2|Hc2];
    rewrite ?Z.ltb_ge in Hc1, Hc2; lia.
Qed.

(** The same for the negation of a whole-number delta; the negation of 0
    is the negative zero. *)
Lemma saturatingAddition_opp_integral (T : UIntType) (r k : Z) :
  in_range T r → r < 2 ^ 53 → Z.abs k < 2 ^ 53 → Z.abs (r - k) < 2 ^ 53 →
  saturatingAddition T (- Z_to_double k)%float r
  = if (k <? 0) && (numeric_limits_max T - r <? - k)
    then Returns (1, numeric_limits_max T)
    else if (0 <? k) && (r <? k) then Returns (-1, 0)
    else Returns (0, r - k).
Proof.
  intros Hr Hr53 Hk Hsum. destruct (Z.eq_dec k 0) as [->|Hne].
  - change (- Z_to_double 0)%float with neg_zero. cbn [Z.ltb Z.compare andb].
    unfold saturatingAddition.
    change (0 <? neg_zero)%float with false.
    change (neg_zero <? 0)%float with false. cbn [andb].
    unfold uint_to_double. rewrite add_neg_zero by (unfold in_range in *; lia).
    rewrite double_to_uint_Z_to_double by assumption.
    f_equal. f_equal. lia.
  - rewrite opp_Z_to_double by assumption.
    rewrite saturatingAddition_integral; try assumption; try lia.
    replace (0 <? - k) with (k <? 0)
      by (apply eq_true_iff_eq; rewrite !Z.ltb_lt; lia).
    replace (- k <? 0) with (0 <? k)
      by (apply eq_true_iff_eq; rewrite !Z.ltb_lt; lia).
    replace (- - k) with k by lia. replace (r + - k) with (r - k) by lia.
    reflexivity.
Qed.

(** A zero delta leaves a stored value below 2^53 as it is, and reports
    no clamp; above 2^53 the value comes back rounded. *)
Lemma saturatingAddition_zero (T : UIntType) (r : Z) :
  in_range T r → r < 2 ^ 53 → saturatingAddition T 0%float r = Returns (0, r).
Proof.
  intros Hr Hr53. change 0%float with (Z_to_double 0).
  rewrite saturatingAddition_integral by (unfold in_range in *; lia).
  cbn [Z.ltb Z.compare andb]. f_equal. f_equal. lia.
Qed.

Example saturatingAddition_zero_rounds :
  saturatingAddition U64 0%float (2 ^ 53 + 1) = Returns (0, 2 ^ 53).
Proof. vm_compute. reflexivity. Qed.

(** When the sum formed in [double] is the integer [s], a call that
    reports no clamp has stored [s], and [s] is a value of the type. *)
Lemma saturatingAddition_stores_sum (T : UIntType) (value : double)
    (r s r' : Z) :
  (uint_to_double r + value)%float = Z_to_double s → Z.abs s < 2 ^ 53 →
  saturatingAddition T value r = Returns (0, r') →
  r' = s ∧ in_range T s.
Proof.
  intros Hsum Hs. unfold saturatingAddition.
  destruct ((0 <? value)%float && _); [discriminate |].
  destruct ((value <? 0)%float && _); [discriminate |].
  rewrite Hsum. unfold double_to_uint.
  rewrite truncate_Z_to_double by exact Hs.
  destruct ((0 <=? s) && (s <=? numeric_limits_max T)) eqn:Hrange; [| discriminate].
  intros [= <-]. split; [reflexivity |].
  apply andb_prop in Hrange as [H1 H2].
  apply Z.leb_le in H1, H2. split; assumption.
Qed.

(** One bound through a shift by an integer and back. *)
Lemma saturatingAddition_round_trip (T : UIntType) (r k r1 r2 : Z) :
  0 <= r < 2 ^ 52 → Z.abs k <= 2 ^ 52 →
  saturatingAddition T (Z_to_double k) r = Returns (0, r1) →
  saturatingAddition T (- Z_to_double k)%float r1 = Returns (0, r2) →
  r2 = r.
Proof.
  intros Hr Hk H1 H2.
  assert (H52 : 2 ^ 53 = 2 * 2 ^ 52) by reflexivity.
  apply (saturatingAddition_stores_sum T _ r (r + k)) in H1 as [-> _];
    [| apply add_Z_to_double; lia | lia].
  apply (saturatingAddition_stores_sum T _ (r + k) r) in H2 as [-> _];
    [reflexivity | | lia].
  unfold uint_to_double. rewrite add_opp_Z_to_double by lia.
  f_equal. lia.
Qed.

(** *** saturatedAdd on whole numbers *)

(** For a value within limits below 2^53 and a whole-number addend,
    saturatedAdd is the integer sum clamped to the limits; only the addend
    0 is left without a result. *)
Lemma saturatedAdd_integral (T : UIntType) (value k upperlimit lowerlimit : Z) :
  in_range T upperlimit → upperlimit < 2 ^ 53 →
  0 <= lowerlimit <= value → value <= upperlimit →
  Z.abs k < 2 ^ 53 →
  saturatedAdd T value (Z_to_double k) upperlimit lowerlimit
  = if 0 <? k then
      if upperlimit - value <? k then Returns upperlimit
      else Returns (value + k)
    else if k <? 0 then
      if value - lowerlimit <? - k then Returns lowerlimit
      else Returns (value + k)
    else Undef FlowsOffEnd.
Proof.
  intros Hup Hup53 Hlow Hval Hk. unfold saturatedAdd.
  unfold in_range in Hup.
  rewrite zero_ltb_Z_to_double, Z_to_double_ltb_zero, abs_Z_to_double
    by exact Hk.
  rewrite !wrap_in_range by (unfold in_range; lia).
  unfold uint_to_double.
  destruct (Z.ltb_spec 0 k) as [Hpos|Hnonpos].
  - rewrite ltb_Z_to_double by lia.
    destruct (Z.ltb_spec (upperlimit - value) k) as [|Hfits]; [reflexivity |].
    rewrite add_Z_to_double by lia.
    rewrite double_to_uint_Z_to_double by (unfold in_range; lia).
    reflexivity.
  - destruct (Z.ltb_spec k 0) as [Hneg|]; [| reflexivity].
    replace (Z.abs k) with (- k) by lia.
    rewrite ltb_Z_to_double by lia.
    destruct (Z.ltb_spec (value - lowerlimit) (- k)) as [|Hfits]; [reflexivity |].
    rewrite sub_Z_to_double by lia.
    replace (value - - k) with (value + k) by lia.
    rewrite double_to_uint_Z_to_double by (unfold in_range; lia).
    reflexivity.
Qed.

(** In that range every addend other than 0 gives a value within the
    limits. *)
Lemma saturatedAdd_integral_within_limits (T : UIntType)
    (value k upperlimit lowerlimit : Z) :
  in_range T upperlimit → upperlimit < 2 ^ 53 →
  0 <= lowerlimit <= value → value <= upperlimit →
  Z.abs k < 2 ^ 53 → k ≠ 0 →
  ∃ r, saturatedAdd T value (Z_to_double k) upperlimit lowerlimit = Returns r
       ∧ lowerlimit <= r <= upperlimit.
Proof.
  intros Hup Hup53 Hlow Hval Hk Hne.
  rewrite saturatedAdd_integral by assumption.
  destruct (Z.ltb_spec 0 k).
  - destruct (Z.ltb_spec (upperlimit - value) k); eexists;
      (split; [reflexivity | lia]).
  - destruct (Z.ltb_spec k 0); [| lia].
    destruct (Z.ltb_spec (value - lowerlimit) (- k)); eexists;
      (split; [reflexivity | lia]).
Qed.

(** ** The event log *)

(** The history after [recordMalloc 0x1000 16 0] on an empty one: the key
    (0x1000, 0) is live. *)
Example after_one_malloc :
  let h := recordMalloc 0x1000 16 0 HeapHistory_new in
  heap_blocks_ h
  = [ {| start_address := 0x1000; block_size := 16; block_heap_id := 0;
         allocation_tick := 0; free_tick := None |} ]
  ∧ live_blocks_ h !! (0x1000, 0) = Some 0%nat
  ∧ conflicts_ h = [] ∧ current_tick_ h = 1.
Proof. vm_compute. repeat split. Qed.

(** Scenario 1 and 4 of the specification: malloc then free. *)
Example malloc_then_free :
  let h := recordFree 0x1000 0 (recordMalloc 0x1000 16 0 HeapHistory_new) in
  heap_blocks_ h
  = [ {| start_address := 0x1000; block_size := 16; block_heap_id := 0;
         allocation_tick := 0; free_tick := Some 1 |} ]
  ∧ live_blocks_ h !! (0x1000, 0) = None
  ∧ conflicts_ h = []
  ∧ global_area_ h = {| minimum_address_ := 0x1000; maximum_address_ := 0x1010;
                        minimum_tick_ := 0; maximum_tick_ := 1 |}.
Proof. vm_compute. repeat split. Qed.

(** C3, as stated for every state, fails on a state in which the key is
    already live: the first of the two calls is then a double alloc too,
    and the two calls append two conflicts. *)
Lemma recordMalloc_twice_on_live_key :
  let h := recordMalloc 0x1000 16 0 HeapHistory_new in
  let h2 := recordMalloc 0x1000 16 0 (recordMalloc 0x1000 16 0 h) in
  conflicts_ h2
  = conflicts_ h
    ++ [ {| tick_ := 1; address_ := 0x1000; allocation_or_free_ := true |};
         {| tick_ := 2; address_ := 0x1000; allocation_or_free_ := true |} ]
  ∧ ¬ ∃ c, conflicts_ h2 = conflicts_ h ++ [c].
Proof.
  vm_compute. split; [reflexivity |].
  intros [c Hc]. discriminate Hc.
Qed.

(** C3 (amended): when the key is not live before the first call, two
    calls of recordMalloc with the same (address, heap_id) append two
    blocks and exactly one conflict of kind alloc at the address; the
    Live Index holds the position of the second block for the key and is
    unchanged elsewhere; the first block stays in the log without a free
    tick. *)
Theorem recordMalloc_twice (h : HeapHistory) (address size1 size2 id : Z) :
  live_blocks_ h !! (address, id) = None →
  let h2 := recordMalloc address size2 id (recordMalloc address size1 id h) in
  let n := length (heap_blocks_ h) in
  let first := {| start_address := address; block_size := size1;
                  block_heap_id := id;
                  allocation_tick := current_tick_ h; free_tick := None |} in
  let second := {| start_address := address; block_size := size2;
                   block_heap_id := id;
                   allocation_tick := wrap U32 (current_tick_ h + 1);
                   free_tick := None |} in
  heap_blocks_ h2 = heap_blocks_ h ++ [first; second]
  ∧ conflicts_ h2
    = conflicts_ h ++ [ {| tick_ := wrap U32 (current_tick_ h + 1);
                           address_ := address;
                           allocation_or_free_ := true |} ]
  ∧ live_blocks_ h2 !! (address, id) = Some (S n)
  ∧ (∀ k, k ≠ (address, id) → live_blocks_ h2 !! k = live_blocks_ h !! k)
  ∧ heap_blocks_ h2 !! n = Some first
  ∧ heap_blocks_ h2 !! S n = Some second
  ∧ free_tick first = None.
Proof.
  intros Hfresh h2 n first second.
  assert (H1 : recordMalloc address size1 id h
               = with_log h (wrap U32 (current_tick_ h + 1))
                   (extend_global_area (global_area_ h) address size1
                      (current_tick_ h))
                   (heap_blocks_ h ++ [first])
                   (<[(address, id) := n]> (live_blocks_ h))).
  { unfold recordMalloc. rewrite Hfresh. reflexivity. }
  assert (Hlive : live_blocks_ (recordMalloc address size1 id h)
                    !! (address, id) = Some n).
  { rewrite H1. cbn [with_log live_blocks_]. apply lookup_insert_eq. }
  assert (Hblocks : heap_blocks_ h2 = heap_blocks_ h ++ [first; second]).
  { subst h2. unfold recordMalloc at 1. rewrite Hlive.
    rewrite H1. cbn. rewrite <- app_assoc. reflexivity. }
  split; [exact Hblocks |].
  split.
  { subst h2. unfold recordMalloc at 1. rewrite Hlive. rewrite H1. reflexivity. }
  split.
  { subst h2. unfold recordMalloc at 1. rewrite Hlive. rewrite H1. cbn.
    rewrite lookup_insert_eq. rewrite length_app. cbn.
    f_equal. subst n. lia. }
  split.
  { intros k Hk. subst h2. unfold recordMalloc at 1. rewrite Hlive.
    rewrite H1. cbn. rewrite !lookup_insert_ne by congruence. reflexivity. }
  split.
  { rewrite Hblocks. subst n.
    rewrite lookup_app_r by lia. rewrite Nat.sub_diag. reflexivity. }
  split; [| reflexivity].
  rewrite Hblocks. subst n.
  rewrite lookup_app_r by lia.
  replace (S (length (heap_blocks_ h)) - length (heap_blocks_ h))%nat
    with 1%nat by lia.
  reflexivity.
Qed.

Lemma recordMalloc_twice_witness :
  let h2 := recordMalloc 0x1000 16 0 (recordMalloc 0x1000 16 0 HeapHistory_new) in
  length (heap_blocks_ h2) = 2%nat
  ∧ conflicts_ h2
    = [ {| tick_ := 1; address_ := 0x1000; allocation_or_free_ := true |} ]
  ∧ live_blocks_ h2 !! (0x1000, 0) = Some 1%nat.
Proof.
  pose proof (recordMalloc_twice HeapHistory_new 0x1000 16 16 0 eq_refl)
    as (Hb & Hc & Hl & _).
  split; [rewrite Hb; reflexivity |].
  split; [rewrite Hc; reflexivity | exact Hl].
Defined.

(** C4: recordFree on a key without a live entry appends one conflict of
    kind free at the address and changes nothing else: no block is added or
    modified, the Live Index, the tick counter and the global area are as
    before. *)
Theorem recordFree_unknown_address (h : HeapHistory) (address id : Z) :
  live_blocks_ h !! (address, id) = None →
  let h' := recordFree address id h in
  conflicts_ h'
  = conflicts_ h ++ [ {| tick_ := current_tick_ h; address_ := address;
                         allocation_or_free_ := false |} ]
  ∧ heap_blocks_ h' = heap_blocks_ h
  ∧ live_blocks_ h' = live_blocks_ h
  ∧ current_tick_ h' = current_tick_ h
  ∧ global_area_ h' = global_area_ h
  ∧ current_window_ h' = current_window_ h
  ∧ grid_rectangle_ h' = grid_rectangle_ h
  ∧ cached_blocks_sorted_by_address_ h' = cached_blocks_sorted_by_address_ h.
Proof.
  intros Habsent h'. subst h'. unfold recordFree. rewrite Habsent.
  repeat split.
Qed.

Lemma recordFree_unknown_address_witness :
  let h' := recordFree 0x2000 0 HeapHistory_new in
  conflicts_ h'
  = [ {| tick_ := 0; address_ := 0x2000; allocation_or_free_ := false |} ]
  ∧ heap_blocks_ h' = [].
Proof.
  pose proof (recordFree_unknown_address HeapHistory_new 0x2000 0 eq_refl)
    as (Hc & Hb & _).
  split; [exact Hc | exact Hb].
Defined.

(** ** The point queries *)

Lemma later_than_spec (c best : nat * HeapBlock) :
  later_than c best = true
  ↔ allocation_tick best.2 < allocation_tick c.2
    ∨ (allocation_tick best.2 = allocation_tick c.2 ∧ (c.1 < best.1)%nat).
Proof.
  unfold later_than.
  rewrite orb_true_iff, andb_true_iff, Z.ltb_lt, Z.eqb_eq, Nat.ltb_lt.
  reflexivity.
Qed.

Section PointQuery.
Variables (blocks : list HeapBlock) (address tick : Z).

Lemma best_in_unique (P : nat → Prop) (r r' : option (nat * HeapBlock)) :
  best_in P blocks address tick r → best_in P blocks address tick r' → r = r'.
Proof.
  destruct r as [[p b]|], r' as [[p' b']|]; cbn; try done.
  - intros (HP & Hl & Hc & Hbest) (HP' & Hl' & Hc' & Hbest').
    destruct (Hbest _ _ HP' Hl' Hc') as [?|[? ?]],
             (Hbest' _ _ HP Hl Hc) as [?|[? ?]]; try lia.
    assert (p = p') by lia. subst p'.
    rewrite Hl in Hl'. congruence.
  - intros (HP & Hl & Hc & _) Hnone.
    rewrite (Hnone _ _ HP Hl) in Hc. discriminate.
  - intros Hnone (HP & Hl & Hc & _).
    rewrite (Hnone _ _ HP Hl) in Hc. discriminate.
Qed.

(** The answer over [P] is the answer over [Q] when [P] holds every
    position of [Q] whose block contains the point. *)
Lemma best_in_covering (P Q : nat → Prop) (r : option (nat * HeapBlock)) :
  (∀ q b, P q → blocks !! q = Some b → Q q) →
  (∀ q b, Q q → blocks !! q = Some b → contains b address tick = true → P q) →
  best_in P blocks address tick r → best_in Q blocks address tick r.
Proof.
  intros HPQ HQP. destruct r as [[p b]|]; cbn.
  - intros (HP & Hl & Hc & Hbest). repeat split; eauto.
  - intros Hnone q b HQ Hl.
    destruct (contains b address tick) eqn:Hc; [| done].
    rewrite <- Hc. eauto.
Qed.

(** Taking one more position into account. *)
Lemma choose_best (P : nat → Prop) (best : option (nat * HeapBlock))
    (p : nat) (b : HeapBlock) :
  blocks !! p = Some b →
  best_in P blocks address tick best →
  best_in (λ q, P q ∨ q = p) blocks address tick
    (choose address tick best p b).
Proof.
  intros Hb Hbest. unfold choose.
  assert (Hat : ∀ q b', q = p → blocks !! q = Some b' → b' = b)
    by (intros q b' -> Hq; congruence).
  destruct (contains b address tick) eqn:Hc.
  - destruct best as [c|]; cbn in Hbest.
    + destruct Hbest as (HP & Hl & Hcc & Hmax).
      destruct (later_than (p, b) c) eqn:Hlater.
      * apply later_than_spec in Hlater. cbn [fst snd] in Hlater.
        cbn. repeat split; [right; reflexivity | exact Hb | exact Hc |].
        intros q b' [Hq| Hq] Hl' Hc'.
        -- destruct (Hmax q b' Hq Hl' Hc') as [?|[? ?]]; lia.
        -- rewrite (Hat q b' Hq Hl'). right. lia.
      * assert (Hnot : ¬ (allocation_tick c.2 < allocation_tick b
                          ∨ (allocation_tick c.2 = allocation_tick b
                             ∧ (p < c.1)%nat))).
        { intros H. apply (later_than_spec (p, b) c) in H. congruence. }
        cbn. repeat split; [left; exact HP | exact Hl | exact Hcc |].
        intros q b' [Hq| Hq] Hl' Hc'.
        -- apply Hmax; assumption.
        -- rewrite (Hat q b' Hq Hl'). lia.
    + cbn. repeat split; [right; reflexivity | exact Hb | exact Hc |].
      intros q b' [Hq| Hq] Hl' Hc'.
      * rewrite (Hbest q b' Hq Hl') in Hc'. discriminate.
      * rewrite (Hat q b' Hq Hl'). right. lia.
  - destruct best as [c|]; cbn in Hbest |- *.
    + destruct Hbest as (HP & Hl & Hcc & Hmax).
      repeat split; [left; exact HP | exact Hl | exact Hcc |].
      intros q b' [Hq| Hq] Hl' Hc'.
      * apply Hmax; assumption.
      * rewrite (Hat q b' Hq Hl') in Hc'. congruence.
    + intros q b' [Hq| Hq] Hl'.
      * apply (Hbest q); assumption.
      * rewrite (Hat q b' Hq Hl'). exact Hc.
Qed.

(** The linear scan keeps the answer over the positions it has seen.  Its
    comparison of ticks alone agrees with [choose], because the position
    it looks at is above all it has seen. *)
Lemma scan_log_best (rest seen : list HeapBlock)
    (best : option (nat * HeapBlock)) :
  blocks = seen ++ rest →
  best_in (λ q, (q < length seen)%nat) blocks address tick best →
  best_in (λ q, (q < length blocks)%nat) blocks address tick
    (scan_log address tick rest (length seen) best).
Proof.
  revert seen best.
  induction rest as [|b rest IH]; intros seen best Hblocks Hbest.
  - cbn. rewrite Hblocks, app_nil_r in *. exact Hbest.
  - cbn [scan_log].
    assert (Hb : blocks !! length seen = Some b).
    { rewrite Hblocks. rewrite lookup_app_r by lia.
      rewrite Nat.sub_diag. reflexivity. }
    replace (S (length seen)) with (length (seen ++ [b]))
      by (rewrite length_app; cbn; lia).
    apply IH; [rewrite <- app_assoc; exact Hblocks |].
    pose proof (choose_best _ best (length seen) b Hb Hbest) as Hstep.
    assert (Hsame : choose address tick best (length seen) b
                    = if contains b address tick then
                        match best with
                        | Some c =>
                            if allocation_tick c.2 <? allocation_tick b
                            then Some (length seen, b) else best
                        | None => Some (length seen, b)
                        end
                      else best).
    { unfold choose. destruct (contains b address tick); [| reflexivity].
      destruct best as [c|]; [| reflexivity].
      destruct Hbest as (Hc & _). unfold later_than. cbn [fst snd].
      replace (length seen <? c.1)%nat with false
        by (symmetry; apply Nat.ltb_ge; lia).
      rewrite andb_false_r, orb_false_r. reflexivity. }
    rewrite <- Hsame.
    eapply best_in_covering; [| | exact Hstep]; cbn beta.
    + intros q _ Hq _. rewrite length_app. cbn. lia.
    + intros q _ Hq _ _. rewrite length_app in Hq. cbn in Hq. lia.
Qed.

(** The scan of a list of positions keeps the answer over the positions
    it has seen, in whatever order they come. *)
Lemma scan_candidate_best (todo seen : list nat)
    (best : option (nat * HeapBlock)) :
  best_in (λ q, q ∈ seen) blocks address tick best →
  best_in (λ q, q ∈ seen ++ todo) blocks address tick
    (foldl (scan_candidate address tick blocks) best todo).
Proof.
  revert seen best. induction todo as [|p todo IH]; intros seen best Hbest.
  - cbn. rewrite app_nil_r. exact Hbest.
  - cbn [foldl].
    replace (seen ++ p :: todo) with ((seen ++ [p]) ++ todo)
      by (rewrite <- app_assoc; reflexivity).
    apply IH. unfold scan_candidate.
    destruct (blocks !! p) as [b|] eqn:Hb.
    + eapply best_in_covering;
        [| | exact (choose_best _ best p b Hb Hbest)]; cbn beta.
      * intros q _ [Hq| ->] _; apply elem_of_app;
          [left; exact Hq | right; apply list_elem_of_singleton; reflexivity].
      * intros q _ Hq _ _.
        apply elem_of_app in Hq as [Hq|Hq%list_elem_of_singleton]; auto.
    + eapply best_in_covering; [| | exact Hbest]; cbn beta.
      * intros q _ Hq _. apply elem_of_app. left. exact Hq.
      * intros q b' Hq Hl _.
        apply elem_of_app in Hq as [Hq|Hq%list_elem_of_singleton];
          [exact Hq | congruence].
Qed.
End PointQuery.

Lemma midpoint_between (lo hi : nat) :
  (lo < hi)%nat → (lo <= lo + (hi - lo) / 2 < hi)%nat.
Proof.
  intros Hlt. pose proof (Nat.Div0.div_lt_upper_bound (hi - lo) 2 (hi - lo)).
  lia.
Qed.

#[global] Instance by_address_total (blocks : list HeapBlock) :
  Total (by_address blocks).
Proof. intros p q. unfold by_address. lia. Qed.

#[global] Instance by_address_trans (blocks : list HeapBlock) :
  Transitive (by_address blocks).
Proof. intros p q r. unfold by_address. lia. Qed.

Section SortedIndex.
Variable blocks : list HeapBlock.

Lemma StronglySorted_lookup_le (index : list nat) (i j p q : nat) :
  StronglySorted (by_address blocks) index →
  (i <= j)%nat → index !! i = Some p → index !! j = Some q →
  address_at blocks p <= address_at blocks q.
Proof.
  intros Hs. revert i j. induction Hs as [|x l Hs IH Hall]; intros i j Hij Hi Hj.
  - rewrite lookup_nil in Hi. discriminate.
  - destruct i as [|i], j as [|j]; cbn in Hi, Hj; try lia.
    + assert (p = q) by congruence. subst q. lia.
    + injection Hi as ->.
      rewrite Forall_forall in Hall. apply Hall.
      eapply list_elem_of_lookup_2. exact Hj.
    + eapply IH; [| exact Hi | exact Hj]. lia.
Qed.

(** The binary search ends, and no entry from its result on starts at or
    below the address. *)
Lemma upper_bound_above (index : list nat) (address : Z) (fuel lo hi : nat) :
  StronglySorted (by_address blocks) index →
  (lo <= hi <= length index)%nat → (hi - lo <= fuel)%nat →
  (∀ j p, (hi <= j)%nat → index !! j = Some p → address < address_at blocks p) →
  ∀ j p, (upper_bound fuel blocks index address lo hi <= j)%nat →
         index !! j = Some p → address < address_at blocks p.
Proof.
  intros Hs. revert lo hi. induction fuel as [|fuel IH]; intros lo hi Hlh Hfuel Hhi.
  - cbn. intros j p Hj. apply Hhi. lia.
  - cbn [upper_bound]. destruct (decide (lo < hi)%nat) as [Hlt|Hge].
    + set (mid := (lo + (hi - lo) / 2)%nat).
      assert (Hmid : (lo <= mid < hi)%nat).
      { subst mid. apply midpoint_between, Hlt. }
      destruct (lookup_lt_is_Some_2 index mid) as [p Hp]; [lia |].
      rewrite Hp.
      destruct (decide (address_at blocks p <= address)) as [Hle|Hgt].
      * apply IH; [lia | lia | exact Hhi].
      * apply IH; [lia | lia |].
        intros j q Hj Hq.
        pose proof (StronglySorted_lookup_le index mid j p q Hs Hj Hp Hq). lia.
    + intros j p Hj. apply Hhi. lia.
Qed.

(** The other half of the search: every entry before its result starts at
    or below the address. *)
Lemma upper_bound_below (index : list nat) (address : Z) (fuel lo hi : nat) :
  StronglySorted (by_address blocks) index →
  (lo <= hi <= length index)%nat →
  (∀ j p, (j < lo)%nat → index !! j = Some p → address_at blocks p <= address) →
  ∀ j p, (j < upper_bound fuel blocks index address lo hi)%nat →
         index !! j = Some p → address_at blocks p <= address.
Proof.
  intros Hs. revert lo hi. induction fuel as [|fuel IH]; intros lo hi Hlh Hlo.
  - cbn. exact Hlo.
  - cbn [upper_bound]. destruct (decide (lo < hi)%nat) as [Hlt|Hge]; [| exact Hlo].
    set (mid := (lo + (hi - lo) / 2)%nat).
    assert (Hmid : (lo <= mid < hi)%nat).
    { subst mid. apply midpoint_between, Hlt. }
    destruct (lookup_lt_is_Some_2 index mid) as [p Hp]; [lia |].
    rewrite Hp.
    destruct (decide (address_at blocks p <= address)) as [Hle|Hgt].
    + apply IH; [lia |].
      intros j q Hj Hq.
      assert (Hjm : (j <= mid)%nat) by lia.
      pose proof (StronglySorted_lookup_le index j mid q p Hs Hjm Hq Hp). lia.
    + apply IH; [lia | exact Hlo].
Qed.

Lemma upper_bound_range (index : list nat) (address : Z) (fuel lo hi : nat) :
  (lo <= hi)%nat →
  (lo <= upper_bound fuel blocks index address lo hi <= hi)%nat.
Proof.
  revert lo hi. induction fuel as [|fuel IH]; intros lo hi Hlh; cbn [upper_bound].
  - lia.
  - destruct (decide (lo < hi)%nat) as [Hlt|Hge]; [| lia].
    set (mid := (lo + (hi - lo) / 2)%nat).
    assert (Hmid : (lo <= mid < hi)%nat).
    { subst mid. apply midpoint_between, Hlt. }
    destruct (index !! mid) as [p|]; [| lia].
    destruct (decide (address_at blocks p <= address)).
    + specialize (IH (S mid) hi). lia.
    + specialize (IH lo mid). lia.
Qed.
End SortedIndex.

Lemma scan_log_answer (blocks : list HeapBlock) (address tick : Z) :
  best_in (λ q, (q < length blocks)%nat) blocks address tick
    (scan_log address tick blocks 0 None).
Proof.
  apply (scan_log_best blocks address tick blocks [] None); [reflexivity |].
  cbn. intros q b Hq. lia.
Qed.

Lemma scan_index_answer (blocks : list HeapBlock) (address tick : Z) :
  let index := merge_sort (by_address blocks) (seq 0 (length blocks)) in
  let k := upper_bound (length index) blocks index address 0 (length index) in
  best_in (λ q, (q < length blocks)%nat) blocks address tick
    (foldl (scan_candidate address tick blocks) None (take k index)).
Proof.
  intros index k.
  assert (Hsorted : StronglySorted (by_address blocks) index).
  { apply StronglySorted_merge_sort; apply _. }
  assert (Hperm : index ≡ₚ seq 0 (length blocks)).
  { apply merge_sort_Permutation. }
  eapply best_in_covering;
    [| | apply (scan_candidate_best blocks address tick (take k index) [] None)].
  - intros q b _ Hq. eapply lookup_lt_Some, Hq.
  - intros q b Hq Hb Hc. cbn [app].
    assert (Hin : q ∈ index).
    { rewrite Hperm. apply elem_of_seq. lia. }
    apply list_elem_of_lookup in Hin as [j Hj].
    apply list_elem_of_lookup. exists j.
    rewrite lookup_take_lt; [exact Hj |].
    destruct (decide (j < k)%nat) as [|Hge]; [assumption | exfalso].
    assert (Habove : address < address_at blocks q).
    { apply (upper_bound_above blocks index address (length index) 0
               (length index) Hsorted) with (j := j).
      - lia.
      - lia.
      - intros j' p' Hj' Hp'. apply lookup_lt_Some in Hp'. lia.
      - fold k. lia.
      - exact Hj. }
    unfold address_at in Habove. rewrite Hb in Habove.
    unfold contains in Hc.
    apply andb_prop in Hc as [Hc _]. apply andb_prop in Hc as [Hc _].
    apply andb_prop in Hc as [Hc _]. apply Z.leb_le in Hc. lia.
  - cbn. intros q b Hq. apply not_elem_of_nil in Hq. contradiction.
Qed.

(** C1: on a freshly rebuilt index, the accelerated point query and the
    linear scan give the same answer for every history and every
    (address, tick): both fail, or both return the same block and index.
    The block returned contains the query point and, of all blocks of the
    log that contain it, has the latest allocation tick (which is at most
    the query tick); the query fails exactly when no block contains the
    point. *)
Theorem getBlockAt_agrees_with_getBlockAtSlow (h : HeapHistory)
    (address tick : Z) :
  let h' := updateCachedSortedIterators h in
  getBlockAt h' address tick = getBlockAtSlow h' address tick
  ∧ (∀ b index, getBlockAtSlow h' address tick = Some (b, index) →
       ∃ p, index = wrap U32 (Z.of_nat p)
            ∧ heap_blocks_ h !! p = Some b
            ∧ contains b address tick = true
            ∧ allocation_tick b <= tick
            ∧ ∀ q b', heap_blocks_ h !! q = Some b' →
                      contains b' address tick = true →
                      allocation_tick b' <= allocation_tick b)
  ∧ (getBlockAtSlow h' address tick = None
     ↔ ∀ q b', heap_blocks_ h !! q = Some b' →
               contains b' address tick = false).
Proof.
  intros h'. unfold getBlockAt, getBlockAtSlow. subst h'.
  cbn [updateCachedSortedIterators with_index heap_blocks_
       cached_blocks_sorted_by_address_].
  set (blocks := heap_blocks_ h).
  pose proof (scan_log_answer blocks address tick) as Hslow.
  pose proof (scan_index_answer blocks address tick) as Hfast.
  cbn zeta in Hfast.
  rewrite (best_in_unique blocks address tick _ _ _ Hfast Hslow).
  split; [reflexivity |].
  destruct (scan_log address tick blocks 0 None) as [[p c]|]; cbn in Hslow |- *.
  - destruct Hslow as (Hp & Hl & Hc & Hmax). split.
    + intros b index [= <- <-]. exists p.
      repeat split; try assumption.
      * unfold contains in Hc.
        apply andb_prop in Hc as [Hc _]. apply andb_prop in Hc as [_ Hc].
        apply Z.leb_le in Hc. exact Hc.
      * intros q b' Hq Hc'.
        destruct (Hmax q b') as [?|[? ?]]; auto; [| lia | lia].
        eapply lookup_lt_Some, Hq.
    + split; [discriminate |].
      intros Hnone. rewrite (Hnone p c Hl) in Hc. discriminate.
  - split; [discriminate |].
    split; [| reflexivity].
    intros _ q b' Hq. apply (Hslow q); [| exact Hq].
    eapply lookup_lt_Some, Hq.
Qed.

Lemma getBlockAt_agrees_with_getBlockAtSlow_witness :
  let h := updateCachedSortedIterators
             (recordMalloc 0x1000 16 0
                (recordMalloc 0x1000 16 0 HeapHistory_new)) in
  let second := {| start_address := 0x1000; block_size := 16;
                   block_heap_id := 0; allocation_tick := 1;
                   free_tick := None |} in
  getBlockAt h 0x1008 5 = Some (second, 1)
  ∧ getBlockAtSlow h 0x1008 5 = Some (second, 1)
  ∧ ∃ p, heap_blocks_ h !! p = Some second
         ∧ ∀ q b', heap_blocks_ h !! q = Some b' →
                   contains b' 0x1008 5 = true →
                   allocation_tick b' <= allocation_tick second.
Proof.
  intros h second.
  destruct (getBlockAt_agrees_with_getBlockAtSlow
              (recordMalloc 0x1000 16 0
                 (recordMalloc 0x1000 16 0 HeapHistory_new)) 0x1008 5)
    as (Hsame & Hlatest & _).
  assert (Hslow : getBlockAtSlow h 0x1008 5 = Some (second, 1))
    by (vm_compute; reflexivity).
  split; [rewrite <- Hslow; exact Hsame |].
  split; [exact Hslow |].
  destruct (Hlatest second 1 Hslow) as (p & _ & Hp & _ & _ & Hmax).
  exists p. split; [exact Hp | exact Hmax].
Defined.

(** After a double alloc the two blocks at the address overlap in time: a
    query at the tick of the first block finds the first, a query at a
    later tick finds the second, by either implementation. *)
Example point_query_after_double_alloc :
  let h := updateCachedSortedIterators
             (recordMalloc 0x1000 16 0
                (recordMalloc 0x1000 16 0 HeapHistory_new)) in
  (snd <$> getBlockAt h 0x1000 0) = Some 0
  ∧ (snd <$> getBlockAtSlow h 0x1000 0) = Some 0
  ∧ (snd <$> getBlockAt h 0x100f 1) = Some 1
  ∧ (snd <$> getBlockAtSlow h 0x100f 1) = Some 1
  ∧ getBlockAt h 0x1010 1 = None
  ∧ getBlockAtSlow h 0x1010 1 = None.
Proof. vm_compute. repeat split. Qed.

(** The index is not maintained by the record operations: queried before
    the rebuild, the accelerated search misses a block that the linear scan
    finds. *)
Example stale_index_misses :
  let h := recordMalloc 0x1000 16 0 HeapHistory_new in
  getBlockAt h 0x1000 0 = None
  ∧ (snd <$> getBlockAtSlow h 0x1000 0) = Some 0
  ∧ (snd <$> getBlockAt (updateCachedSortedIterators h) 0x1000 0) = Some 0.
Proof. vm_compute. repeat split. Qed.

(** ** The saturating helpers beyond the whole-number case *)

(** *** Special values of [double] *)

Lemma Prim2SF_nan (v : double) : is_nan v = true → Prim2SF v = S754_nan.
Proof. intros H. unfold Prim2SF. now rewrite H. Qed.

Lemma Prim2SF_nan_inv (v : double) : Prim2SF v = S754_nan → is_nan v = true.
Proof.
  unfold Prim2SF. destruct (is_nan v); [reflexivity|].
  destruct (is_zero v); [discriminate|].
  destruct (is_infinity v); [discriminate|].
  destruct (Z.frexp v) as [r exp].
  destruct (shr_fexp _ _ _ _ _) as [shr e'].
  destruct (shr_m shr); discriminate.
Qed.

(** The conversion of a 64-bit unsigned value is zero or a positive finite
    number. *)
Lemma Z_to_double_nonneg (z : Z) :
  0 <= z < 2 ^ 64 →
  Prim2SF (Z_to_double z) = S754_zero false
  ∨ ∃ m e, Prim2SF (Z_to_double z) = S754_finite false m e.
Proof.
  intros Hz. destruct (Z_lt_le_dec z (2 ^ 53)) as [Hs|Hl].
  - rewrite Prim2SF_Z_to_double by lia. unfold canonical.
    destruct z as [|p|p]; [now left|right; eauto|lia].
  - destruct (binary_normalize_large z) as (m & e & Hn & _ & Hv); [lia|].
    right. exists m, e. unfold Z_to_double. rewrite Hn.
    now apply Prim2SF_SF2Prim.
Qed.

Lemma Z_to_double_ltb_infinity (z : Z) :
  0 <= z < 2 ^ 64 → (Z_to_double z <? infinity)%float = true.
Proof.
  intros Hz. rewrite FloatAxioms.ltb_spec.
  destruct (Z_to_double_nonneg z Hz) as [->|(m & e & ->)]; reflexivity.
Qed.

Lemma wrap_bounds (T : UIntType) (z : Z) : 0 <= wrap T z < 2 ^ 64.
Proof.
  unfold wrap. destruct T; cbn [bits].
  - pose proof (Z.mod_pos_bound z (2 ^ 32) ltac:(lia)). lia.
  - pose proof (Z.mod_pos_bound z (2 ^ 64) ltac:(lia)). lia.
Qed.

Lemma wrap_is_in_range (T : UIntType) (z : Z) : in_range T (wrap T z).
Proof.
  unfold wrap, in_range, numeric_limits_max. destruct T; cbn [bits].
  - pose proof (Z.mod_pos_bound z (2 ^ 32) ltac:(lia)). lia.
  - pose proof (Z.mod_pos_bound z (2 ^ 64) ltac:(lia)). lia.
Qed.

(** A [double] that is neither above nor below zero is a zero or a NaN. *)
Lemma ltb_zero_cases (v : double) :
  (0 <? v)%float = false → (v <? 0)%float = false →
  (v =? 0)%float = true ∨ is_nan v = true.
Proof.
  rewrite !FloatAxioms.ltb_spec, FloatAxioms.eqb_spec.
  change (Prim2SF 0) with (S754_zero false).
  destruct (Prim2SF v) as [[]|[]| |[] m e] eqn:E; cbn; intros Hp Hn;
    try discriminate; auto.
  right. now apply Prim2SF_nan_inv.
Qed.

Lemma eqb_zero_cases (v : double) :
  (v =? 0)%float = true → v = 0%float ∨ v = neg_zero.
Proof.
  rewrite FloatAxioms.eqb_spec. change (Prim2SF 0) with (S754_zero false).
  destruct (Prim2SF v) as [[]|[]| |[] m e] eqn:E; cbn; try discriminate;
    intros _.
  - right. now apply Prim2SF_inj.
  - left. now apply Prim2SF_inj.
Qed.

(** For a negative [v], [x - fabs(v)] and [x + v] are the same [double]. *)
Lemma sub_abs_negative (x v : double) :
  (v <? 0)%float = true → (x - abs v)%float = (x + v)%float.
Proof.
  intros Hv. apply Prim2SF_inj. revert Hv.
  rewrite sub_spec, add_spec, abs_spec, FloatAxioms.ltb_spec.
  change (Prim2SF 0) with (S754_zero false).
  destruct (Prim2SF v) as [[]|[]| |[] m e]; cbn; try discriminate; intros _.
  - now destruct (Prim2SF x) as [[]|[]| |[] mx ex].
  - destruct (Prim2SF x) as [[]|[]| |[] mx ex]; reflexivity.
Qed.

(** The conversion of an integer of at most 53 bits is that integer. *)
Lemma is_integer_Z_to_double (z : Z) :
  Z.abs z < 2 ^ 53 → is_integer (Z_to_double z) z = true.
Proof.
  intros Hz. unfold is_integer. rewrite Prim2SF_Z_to_double by exact Hz.
  destruct z as [|p|p]; cbn [canonical]; [reflexivity| |].
  - assert (Hd : Zpos (digits2_pos p) <= 53) by (apply digits2_pos_le_53; lia).
    destruct (mantissa53_spec p Hd) as [Hm _]. rewrite Hm.
    rewrite Z.max_l, Z.max_r by lia. rewrite Z.pow_0_r.
    apply Z.eqb_eq.
    replace (- (Zpos (digits2_pos p) - 53)) with (53 - Zpos (digits2_pos p))
      by lia.
    lia.
  - assert (Hd : Zpos (digits2_pos p) <= 53) by (apply digits2_pos_le_53; lia).
    destruct (mantissa53_spec p Hd) as [Hm _].
    rewrite Z.max_l, Z.max_r by lia. rewrite Z.pow_0_r.
    apply Z.eqb_eq. rewrite Hm.
    replace (- (Zpos (digits2_pos p) - 53)) with (53 - Zpos (digits2_pos p))
      by lia.
    lia.
Qed.

(** A [double] with a fractional part is no integer, and a 54-bit integer
    that the conversion rounds is not what the [double] holds. *)
Example is_integer_rejects :
  is_integer 2.5%float 2 = false
  ∧ is_integer (Z_to_double (2 ^ 53 + 1)) (2 ^ 53 + 1) = false
  ∧ is_integer (Z_to_double (2 ^ 53 + 1)) (2 ^ 53) = true.
Proof. vm_compute. auto. Qed.

(** *** saturatingAddition *)

(** The three branches on a whole-number delta, when the value that is
    stored is below 2^53: the sum itself, or a limit of [T] below 2^53. *)
Lemma saturatingAddition_whole (T : UIntType) (r k : Z) :
  in_range T r → r < 2 ^ 53 → Z.abs k < 2 ^ 53 →
  Z.min (numeric_limits_max T) (r + k) < 2 ^ 53 →
  saturatingAddition T (Z_to_double k) r
  = if (0 <? k) && (numeric_limits_max T - r <? k)
    then Returns (1, numeric_limits_max T)
    else if (k <? 0) && (r <? - k) then Returns (-1, 0)
    else Returns (0, r + k).
Proof.
  intros Hr H53 Hk Hmin.
  destruct (Z_lt_le_dec (Z.abs (r + k)) (2 ^ 53)) as [Hs|Hs].
  { now apply saturatingAddition_integral. }
  pose proof Hr as Hr'. unfold in_range in Hr'.
  assert (Hmax : numeric_limits_max T < 2 ^ 53 ∧ numeric_limits_max T < r + k)
    by lia.
  destruct Hmax as [Hmax Hover].
  unfold saturatingAddition, uint_to_double.
  rewrite zero_ltb_Z_to_double by exact Hk.
  rewrite wrap_in_range by (unfold in_range; lia).
  rewrite ltb_Z_to_double by lia.
  destruct (Z.ltb_spec 0 k), (Z.ltb_spec (numeric_limits_max T - r) k);
    try lia. reflexivity.
Qed.

(** X1: for a stored value [r] below 2^53 and a whole-number delta [k] of
    magnitude below 2^53 such that the smaller of [r + k] and the maximum
    of [T] is below 2^53 (it always is for [uint32_t]), saturatingAddition
    stores the exact sum clamped to the range of [T]; the code is 1 when
    the sum is above the maximum, -1 when it is below zero, and 0
    otherwise. *)
Theorem saturatingAddition_clamps_sum (T : UIntType) (r k : Z) :
  in_range T r → r < 2 ^ 53 → Z.abs k < 2 ^ 53 →
  Z.min (numeric_limits_max T) (r + k) < 2 ^ 53 →
  saturatingAddition T (Z_to_double k) r
  = Returns (if numeric_limits_max T <? r + k then 1
             else if r + k <? 0 then -1 else 0,
             Z.max 0 (Z.min (numeric_limits_max T) (r + k))).
Proof.
  intros Hr Hr53 Hk Hs. rewrite saturatingAddition_whole by assumption.
  unfold in_range in Hr.
  destruct (Z.ltb_spec 0 k), (Z.ltb_spec (numeric_limits_max T - r) k),
    (Z.ltb_spec k 0), (Z.ltb_spec r (- k)),
    (Z.ltb_spec (numeric_limits_max T) (r + k)), (Z.ltb_spec (r + k) 0);
    cbn [andb]; try lia; f_equal; f_equal; lia.
Qed.

Lemma saturatingAddition_clamps_sum_witness :
  saturatingAddition U32 (Z_to_double (2 ^ 53 - 1)) (2 ^ 32 - 3)
  = Returns (1, 2 ^ 32 - 1).
Proof.
  apply (saturatingAddition_clamps_sum U32 (2 ^ 32 - 3) (2 ^ 53 - 1));
    vm_compute; repeat split; congruence.
Defined.

(** On [uint64_t] the bound on the stored value is needed: the sum
    2^53 + 1 is stored as 2^53. *)
Example saturatingAddition_sum_above_53_bits :
  saturatingAddition U64 (Z_to_double 2) (2 ^ 53 - 1) = Returns (0, 2 ^ 53).
Proof. vm_compute. reflexivity. Qed.

(** X2: for two bounds [lo <= hi] of [T] below 2^53 and a whole-number
    delta [k] of magnitude below 2^53 such that the smaller of [hi + k]
    and the maximum of [T] is below 2^53, shifting both bounds by [k]
    returns for both, never inverts the interval and never widens it;
    when both codes are 0 the extent is unchanged. *)
Theorem saturatingAddition_keeps_order (T : UIntType) (lo hi k : Z) :
  in_range T lo → in_range T hi → lo <= hi → hi < 2 ^ 53 →
  Z.abs k < 2 ^ 53 → Z.min (numeric_limits_max T) (hi + k) < 2 ^ 53 →
  ∃ c lo' c' hi',
    saturatingAddition T (Z_to_double k) lo = Returns (c, lo')
    ∧ saturatingAddition T (Z_to_double k) hi = Returns (c', hi')
    ∧ lo' <= hi' ∧ hi' - lo' <= hi - lo
    ∧ (c = 0 → c' = 0 → hi' - lo' = hi - lo).
Proof.
  intros Hlo Hhi Hle H53 Hk Hs. unfold in_range in Hlo, Hhi.
  rewrite !saturatingAddition_whole by (unfold in_range; lia).
  destruct (Z.ltb_spec 0 k), (Z.ltb_spec (numeric_limits_max T - lo) k),
    (Z.ltb_spec (numeric_limits_max T - hi) k),
    (Z.ltb_spec k 0), (Z.ltb_spec lo (- k)), (Z.ltb_spec hi (- k));
    cbn [andb]; try lia;
    do 4 eexists; (split; [reflexivity|]); (split; [reflexivity|]); lia.
Qed.

Lemma saturatingAddition_keeps_order_witness :
  ∃ c lo' c' hi',
    saturatingAddition U32 (Z_to_double (-7)) 3 = Returns (c, lo')
    ∧ saturatingAddition U32 (Z_to_double (-7)) 10 = Returns (c', hi')
    ∧ lo' <= hi' ∧ hi' - lo' <= 10 - 3
    ∧ (c = 0 → c' = 0 → hi' - lo' = 10 - 3).
Proof.
  apply (saturatingAddition_keeps_order U32 3 10 (-7));
    vm_compute; repeat split; congruence.
Defined.

(** On [uint64_t] the bound on the shifted upper end is needed: past
    2^53 both calls return 0 and the extent grows from 1 to 2. *)
Example saturatingAddition_extent_above_53_bits :
  saturatingAddition U64 (Z_to_double 3) (2 ^ 53 - 2) = Returns (0, 2 ^ 53)
  ∧ saturatingAddition U64 (Z_to_double 3) (2 ^ 53 - 1)
    = Returns (0, 2 ^ 53 + 2).
Proof. vm_compute. auto. Qed.

(** X3: a whole-number delta that keeps the value inside the range of [T]
    is stored exactly with code 0, and adding the opposite delta gives the
    starting value back, again with code 0. *)
Theorem saturatingAddition_undo (T : UIntType) (r k : Z) :
  in_range T r → in_range T (r + k) → r < 2 ^ 52 → Z.abs k <= 2 ^ 52 →
  saturatingAddition T (Z_to_double k) r = Returns (0, r + k)
  ∧ saturatingAddition T (- Z_to_double k)%float (r + k) = Returns (0, r).
Proof.
  intros Hr Hs H52 Hk. unfold in_range in Hr, Hs. split.
  - rewrite saturatingAddition_integral by (unfold in_range; lia).
    destruct (Z.ltb_spec 0 k), (Z.ltb_spec (numeric_limits_max T - r) k),
      (Z.ltb_spec k 0), (Z.ltb_spec r (- k)); cbn [andb]; try lia;
      reflexivity.
  - rewrite saturatingAddition_opp_integral by (unfold in_range; lia).
    replace (r + k - k) with r by lia.
    destruct (Z.ltb_spec 0 k),
      (Z.ltb_spec (numeric_limits_max T - (r + k)) (- k)),
      (Z.ltb_spec k 0), (Z.ltb_spec (r + k) k); cbn [andb]; try lia;
      reflexivity.
Qed.

Lemma saturatingAddition_undo_witness :
  saturatingAddition U32 (Z_to_double (-40)) 100 = Returns (0, 100 + -40)
  ∧ saturatingAddition U32 (- Z_to_double (-40))%float (100 + -40)
    = Returns (0, 100).
Proof.
  apply (saturatingAddition_undo U32 100 (-40));
    vm_compute; repeat split; congruence.
Defined.

(** X4: a zero delta of either sign leaves a stored value below 2^53 as it
    is and reports code 0. *)
Theorem saturatingAddition_zero_delta (T : UIntType) (v : double) (r : Z) :
  in_range T r → r < 2 ^ 53 → (v =? 0)%float = true →
  saturatingAddition T v r = Returns (0, r).
Proof.
  intros Hr H53 Hv.
  destruct (eqb_zero_cases v Hv) as [->| ->].
  - now apply saturatingAddition_zero.
  - unfold saturatingAddition, uint_to_double.
    change (0 <? neg_zero)%float with false.
    change (neg_zero <? 0)%float with false. cbn [andb].
    rewrite add_neg_zero by (unfold in_range in Hr; lia).
    now rewrite double_to_uint_Z_to_double.
Qed.

Lemma saturatingAddition_zero_delta_witness :
  saturatingAddition U64 (-0)%float (2 ^ 53 - 1) = Returns (0, 2 ^ 53 - 1).
Proof.
  apply (saturatingAddition_zero_delta U64 (-0)%float (2 ^ 53 - 1));
    vm_compute; repeat split; congruence.
Defined.

(** X5: a value that sits at the maximum stays there under every positive
    delta, with code 1; a value that sits at zero stays there under every
    negative delta, with code -1.  The delta is any [double], fractional
    or infinite. *)
Theorem saturatingAddition_at_limit (T : UIntType) (v : double) :
  ((0 <? v)%float = true →
   saturatingAddition T v (numeric_limits_max T)
   = Returns (1, numeric_limits_max T))
  ∧ ((v <? 0)%float = true → saturatingAddition T v 0 = Returns (-1, 0)).
Proof.
  unfold saturatingAddition. split; intros Hv.
  - rewrite Z.sub_diag. replace (wrap T 0) with 0 by (now destruct T).
    change (uint_to_double 0) with 0%float. now rewrite Hv.
  - change (uint_to_double 0) with 0%float.
    assert ((0 <? v)%float = false ∧ (0 <? abs v)%float = true) as [-> ->].
    { revert Hv. rewrite !FloatAxioms.ltb_spec, abs_spec.
      change (Prim2SF 0) with (S754_zero false).
      destruct (Prim2SF v) as [[]|[]| |[] m e]; cbn; intros; auto;
        discriminate. }
    now rewrite Hv.
Qed.

Lemma saturatingAddition_at_limit_witness :
  saturatingAddition U32 0.5%float (numeric_limits_max U32)
  = Returns (1, numeric_limits_max U32)
  ∧ saturatingAddition U64 (-0.5)%float 0 = Returns (-1, 0).
Proof.
  split.
  - apply (proj1 (saturatingAddition_at_limit U32 0.5%float)). reflexivity.
  - apply (proj2 (saturatingAddition_at_limit U64 (-0.5)%float)). reflexivity.
Defined.

(** X6: an infinite delta clamps every stored value: plus infinity stores
    the maximum with code 1, minus infinity stores zero with code -1. *)
Theorem saturatingAddition_infinite (T : UIntType) (r : Z) :
  in_range T r →
  saturatingAddition T infinity r = Returns (1, numeric_limits_max T)
  ∧ saturatingAddition T neg_infinity r = Returns (-1, 0).
Proof.
  intros Hr. unfold saturatingAddition, uint_to_double. split.
  - rewrite Z_to_double_ltb_infinity by apply wrap_bounds. reflexivity.
  - change (abs neg_infinity) with infinity.
    rewrite Z_to_double_ltb_infinity; [reflexivity|].
    unfold in_range, numeric_limits_max in Hr.
    destruct T; cbn [bits] in Hr; lia.
Qed.

Lemma saturatingAddition_infinite_witness :
  saturatingAddition U64 infinity (2 ^ 64 - 1)
  = Returns (1, numeric_limits_max U64)
  ∧ saturatingAddition U64 neg_infinity (2 ^ 64 - 1) = Returns (-1, 0).
Proof.
  apply (saturatingAddition_infinite U64 (2 ^ 64 - 1)).
  vm_compute; split; congruence.
Defined.

(** X7: a NaN delta passes both guards, and the conversion of the NaN sum
    to [T] has no defined result, whatever the stored value. *)
Theorem saturatingAddition_nan (T : UIntType) (v : double) (r : Z) :
  is_nan v = true →
  saturatingAddition T v r = Undef UnrepresentableConversion.
Proof.
  intros Hv. apply Prim2SF_nan in Hv. unfold saturatingAddition.
  assert ((0 <? v)%float = false) as ->.
  { rewrite FloatAxioms.ltb_spec, Hv. reflexivity. }
  assert ((v <? 0)%float = false) as ->.
  { rewrite FloatAxioms.ltb_spec, Hv. reflexivity. }
  cbn [andb]. unfold double_to_uint, truncate.
  rewrite add_spec, Hv.
  now destruct (Prim2SF (uint_to_double r)).
Qed.

Lemma saturatingAddition_nan_witness :
  saturatingAddition U64 nan 7 = Undef UnrepresentableConversion.
Proof. apply (saturatingAddition_nan U64 nan 7). reflexivity. Defined.

(** *** saturatedAdd *)

(** X8: saturatedAdd reaches no [return] exactly when the addend is a zero
    of either sign or a NaN, whatever the value and the limits. *)
Theorem saturatedAdd_no_return (T : UIntType) (value : Z) (addend : double)
    (upperlimit lowerlimit : Z) :
  saturatedAdd T value addend upperlimit lowerlimit = Undef FlowsOffEnd
  ↔ (addend =? 0)%float = true ∨ is_nan addend = true.
Proof.
  split.
  - unfold saturatedAdd.
    destruct (0 <? addend)%float eqn:Hp.
    { destruct (uint_to_double _ <? addend)%float; [intros; discriminate|].
      destruct (double_to_uint _ _); intros; discriminate. }
    destruct (addend <? 0)%float eqn:Hn.
    { destruct (uint_to_double _ <? abs addend)%float;
        [intros; discriminate|].
      destruct (double_to_uint _ _); intros; discriminate. }
    intros _. now apply ltb_zero_cases.
  - intros [Hz|Hnan]; [now apply saturatedAdd_zero_addend|].
    apply Prim2SF_nan in Hnan. unfold saturatedAdd.
    rewrite !FloatAxioms.ltb_spec, Hnan. reflexivity.
Qed.

(** X9: for a value between limits below 2^53 and a nonzero whole-number
    addend, saturatedAdd returns the exact sum clamped to the two limits. *)
Theorem saturatedAdd_clamps_sum (T : UIntType)
    (value k upperlimit lowerlimit : Z) :
  in_range T upperlimit → upperlimit < 2 ^ 53 →
  0 <= lowerlimit <= value → value <= upperlimit →
  Z.abs k < 2 ^ 53 → k ≠ 0 →
  saturatedAdd T value (Z_to_double k) upperlimit lowerlimit
  = Returns (Z.max lowerlimit (Z.min upperlimit (value + k))).
Proof.
  intros Hu H53 Hl Hv Hk Hk0.
  rewrite saturatedAdd_integral by assumption.
  destruct (Z.ltb_spec 0 k), (Z.ltb_spec (upperlimit - value) k),
    (Z.ltb_spec k 0), (Z.ltb_spec (value - lowerlimit) (- k));
    try lia; f_equal; lia.
Qed.

Lemma saturatedAdd_clamps_sum_witness :
  saturatedAdd U32 50 (Z_to_double (-45)) 100 10
  = Returns (Z.max 10 (Z.min 100 (50 + -45))).
Proof.
  apply (saturatedAdd_clamps_sum U32 50 (-45) 100 10);
    vm_compute; repeat split; congruence.
Defined.

(** X10: an infinite addend returns a limit: plus infinity the upper one,
    minus infinity the lower one, whatever the value and the limits. *)
Theorem saturatedAdd_infinite (T : UIntType) (value upperlimit lowerlimit : Z) :
  saturatedAdd T value infinity upperlimit lowerlimit = Returns upperlimit
  ∧ saturatedAdd T value neg_infinity upperlimit lowerlimit
    = Returns lowerlimit.
Proof.
  unfold saturatedAdd, uint_to_double. split.
  - change (0 <? infinity)%float with true. cbv iota.
    now rewrite Z_to_double_ltb_infinity by apply wrap_bounds.
  - change (0 <? neg_infinity)%float with false.
    change (neg_infinity <? 0)%float with true.
    change (abs neg_infinity) with infinity. cbv iota.
    now rewrite Z_to_double_ltb_infinity by apply wrap_bounds.
Qed.

(** X11: with the limits of the type, the maximum above and zero below,
    saturatedAdd returns what saturatingAddition stores, for every addend
    that is above or below zero (fractional and infinite ones included);
    where one has no defined result, neither has the other. *)
Theorem saturatedAdd_agrees_with_saturatingAddition (T : UIntType) (r : Z)
    (v : double) :
  in_range T r → (0 <? v)%float = true ∨ (v <? 0)%float = true →
  saturatedAdd T r v (numeric_limits_max T) 0
  = ('(_, stored) ← saturatingAddition T v r; mret stored).
Proof.
  intros Hr Hv. unfold saturatedAdd, saturatingAddition.
  rewrite Z.sub_0_r, (wrap_in_range T r Hr).
  destruct (0 <? v)%float eqn:Hp; cbn [andb].
  - destruct (uint_to_double _ <? v)%float; [reflexivity|].
    assert ((v <? 0)%float = false) as ->.
    { revert Hp. rewrite !FloatAxioms.ltb_spec.
      change (Prim2SF 0) with (S754_zero false).
      destruct (Prim2SF v) as [[]|[]| |[] m e]; cbn; intros; auto;
        discriminate. }
    cbn [andb]. now destruct (double_to_uint _ _).
  - destruct Hv as [Hv|Hv]; [discriminate|]. rewrite Hv. cbn [andb].
    destruct (uint_to_double _ <? abs v)%float; [reflexivity|].
    rewrite (sub_abs_negative _ v Hv). now destruct (double_to_uint _ _).
Qed.

Lemma saturatedAdd_agrees_with_saturatingAddition_witness :
  saturatedAdd U32 9 (-2.5)%float (numeric_limits_max U32) 0
  = ('(_, stored) ← saturatingAddition U32 (-2.5)%float 9; mret stored).
Proof.
  apply (saturatedAdd_agrees_with_saturatingAddition U32 9 (-2.5)%float).
  - vm_compute; split; congruence.
  - right. reflexivity.
Defined.

(** ** The window getters *)

Lemma halves_of_pair (hi lo : Z) :
  0 <= hi < 2 ^ 32 → 0 <= lo < 2 ^ 32 →
  wrap U32 (Z.shiftr (hi * 2 ^ 32 + lo) 32) = hi
  ∧ wrap U32 (hi * 2 ^ 32 + lo) = lo.
Proof.
  intros Hhi Hlo. unfold wrap. cbn [bits].
  rewrite Z.shiftr_div_pow2 by lia.
  rewrite Z.div_add_l, (Z.div_small lo) by lia.
  rewrite Z.add_0_r, (Z.mod_small hi) by lia.
  rewrite Z.add_comm, Z.mod_add, Z.mod_small by lia. auto.
Qed.

Lemma halves_recombine (a : Z) :
  0 <= a < 2 ^ 64 →
  wrap U32 (Z.shiftr a 32) * 2 ^ 32 + wrap U32 a = a.
Proof.
  intros Ha. unfold wrap. cbn [bits].
  rewrite Z.shiftr_div_pow2 by lia.
  rewrite (Z.mod_small (a / 2 ^ 32)).
  - pose proof (Z.div_mod a (2 ^ 32) ltac:(lia)). lia.
  - split; [apply Z.div_pos; lia | apply Z.div_lt_upper_bound; lia].
Qed.

(** X12: [HeapWindow]'s height and width are the differences modulo 2^64
    and 2^32: adding them to the minimum leads back to the maximum in the
    arithmetic of the type, also for an inverted window, whose extent is
    the power of two less the gap; the extent is 0 only when the two
    bounds are equal. *)
Theorem height_width_wrap_back (w : HeapWindow) :
  HeapWindow_wf w →
  wrap U64 (minimum_address_ w + height w) = maximum_address_ w
  ∧ wrap U32 (minimum_tick_ w + width w) = maximum_tick_ w
  ∧ in_range U64 (height w) ∧ in_range U32 (width w)
  ∧ (height w = 0 ↔ maximum_address_ w = minimum_address_ w)
  ∧ (width w = 0 ↔ maximum_tick_ w = minimum_tick_ w)
  ∧ (maximum_address_ w < minimum_address_ w →
     height w = 2 ^ 64 - (minimum_address_ w - maximum_address_ w))
  ∧ (maximum_tick_ w < minimum_tick_ w →
     width w = 2 ^ 32 - (minimum_tick_ w - maximum_tick_ w)).
Proof.
  intros (Ha1 & Ha2 & Ht1 & Ht2).
  unfold in_range, numeric_limits_max in *. cbn [bits] in *.
  unfold height, width, wrap. cbn [bits].
  set (a := minimum_address_ w) in *. set (b := maximum_address_ w) in *.
  set (s := minimum_tick_ w) in *. set (t := maximum_tick_ w) in *.
  assert (Hh : (b - a) mod 2 ^ 64 = if b <? a then 2 ^ 64 - (a - b) else b - a).
  { destruct (Z.ltb_spec b a).
    - symmetry. apply (Z.mod_unique_pos _ _ (-1)); lia.
    - apply Z.mod_small. lia. }
  assert (Hw : (t - s) mod 2 ^ 32 = if t <? s then 2 ^ 32 - (s - t) else t - s).
  { destruct (Z.ltb_spec t s).
    - symmetry. apply (Z.mod_unique_pos _ _ (-1)); lia.
    - apply Z.mod_small. lia. }
  rewrite Hh, Hw.
  destruct (Z.ltb_spec b a), (Z.ltb_spec t s); repeat split; try lia.
  all: try (symmetry; apply (Z.mod_unique_pos _ _ 1); lia).
  all: rewrite Z.mod_small by lia; lia.
Qed.

Lemma height_width_wrap_back_witness :
  let w := {| minimum_address_ := 5; maximum_address_ := 3;
              minimum_tick_ := 9; maximum_tick_ := 2 |} in
  wrap U64 (minimum_address_ w + height w) = maximum_address_ w
  ∧ wrap U32 (minimum_tick_ w + width w) = maximum_tick_ w
  ∧ in_range U64 (height w) ∧ in_range U32 (width w)
  ∧ (height w = 0 ↔ maximum_address_ w = minimum_address_ w)
  ∧ (width w = 0 ↔ maximum_tick_ w = minimum_tick_ w)
  ∧ (maximum_address_ w < minimum_address_ w →
     height w = 2 ^ 64 - (minimum_address_ w - maximum_address_ w))
  ∧ (maximum_tick_ w < minimum_tick_ w →
     width w = 2 ^ 32 - (minimum_tick_ w - maximum_tick_ w)).
Proof.
  intros w. apply (height_width_wrap_back w).
  vm_compute; repeat split; congruence.
Defined.

(** X13: the two 32-bit getters invert the pairing of two 32-bit words:
    a minimum address made of the high word [hi] and the low word [lo] is
    read back as exactly these two words. *)
Theorem minimum_address_halves_of_pair (w : ContinuousHeapWindow) (hi lo : Z) :
  0 <= hi < 2 ^ 32 → 0 <= lo < 2 ^ 32 →
  getMinimumAddress w = hi * 2 ^ 32 + lo →
  getMinimumAddressHigh32 w = hi ∧ getMinimumAddressLow32 w = lo
  ∧ in_range U64 (getMinimumAddress w).
Proof.
  unfold getMinimumAddress, getMinimumAddressHigh32, getMinimumAddressLow32.
  intros Hhi Hlo ->. destruct (halves_of_pair hi lo Hhi Hlo) as [-> ->].
  repeat split; unfold numeric_limits_max; cbn [bits]; lia.
Qed.

Lemma minimum_address_halves_of_pair_witness :
  let w := {| c_minimum_address_ := 0x7fff12345678;
              c_maximum_address_ := 0x7fff12345679;
              c_minimum_tick_ := 0; c_maximum_tick_ := 1;
              x_shift_ := 0; y_shift_ := 0 |} in
  getMinimumAddressHigh32 w = 0x7fff ∧ getMinimumAddressLow32 w = 0x12345678
  ∧ in_range U64 (getMinimumAddress w).
Proof.
  intros w.
  apply (minimum_address_halves_of_pair w 0x7fff 0x12345678);
    vm_compute; repeat split; congruence.
Defined.

(** X14: for an ordered window whose address extent is below 2^53, the
    [double] width and height of [ContinuousHeapWindow] are the integer
    differences of the bounds, with no fractional part and no rounding
    (so they convert back to these integers), and the width is also the
    difference of the two tick getters taken in [double]. *)
Theorem continuous_width_height_exact (w : ContinuousHeapWindow) :
  ContinuousHeapWindow_wf w →
  c_minimum_tick_ w <= c_maximum_tick_ w →
  c_minimum_address_ w <= c_maximum_address_ w →
  c_maximum_address_ w - c_minimum_address_ w < 2 ^ 53 →
  is_integer (c_width w) (c_maximum_tick_ w - c_minimum_tick_ w) = true
  ∧ is_integer (c_height w) (c_maximum_address_ w - c_minimum_address_ w)
    = true
  ∧ double_to_uint U32 (c_width w)
    = Some (c_maximum_tick_ w - c_minimum_tick_ w)
  ∧ double_to_uint U64 (c_height w)
    = Some (c_maximum_address_ w - c_minimum_address_ w)
  ∧ (getMaximumTickAsDouble w - getMinimumTickAsDouble w)%float = c_width w.
Proof.
  intros (Ha1 & Ha2 & Ht1 & Ht2) Ht Ha H53.
  unfold in_range, numeric_limits_max in *. cbn [bits] in *.
  unfold c_width, c_height, getMaximumTickAsDouble, getMinimumTickAsDouble,
    uint_to_double.
  rewrite !wrap_in_range
    by (unfold in_range, numeric_limits_max; cbn [bits]; lia).
  rewrite !is_integer_Z_to_double by lia.
  rewrite !double_to_uint_Z_to_double
    by (unfold in_range, numeric_limits_max; cbn [bits]; lia).
  rewrite sub_Z_to_double by lia. auto.
Qed.

Lemma continuous_width_height_exact_witness :
  let w := {| c_minimum_address_ := 0x7fff00000000;
              c_maximum_address_ := 0x7fff00100000;
              c_minimum_tick_ := 10; c_maximum_tick_ := 2 ^ 32 - 1;
              x_shift_ := 0; y_shift_ := 0 |} in
  is_integer (c_width w) (c_maximum_tick_ w - c_minimum_tick_ w) = true
  ∧ is_integer (c_height w) (c_maximum_address_ w - c_minimum_address_ w)
    = true
  ∧ double_to_uint U32 (c_width w)
    = Some (c_maximum_tick_ w - c_minimum_tick_ w)
  ∧ double_to_uint U64 (c_height w)
    = Some (c_maximum_address_ w - c_minimum_address_ w)
  ∧ (getMaximumTickAsDouble w - getMinimumTickAsDouble w)%float = c_width w.
Proof.
  intros w. apply (continuous_width_height_exact w);
    vm_compute; repeat split; congruence.
Defined.

(** An address extent of 54 bits is rounded by the conversion. *)
Example c_height_rounds :
  double_to_uint U64
    (c_height {| c_minimum_address_ := 0; c_maximum_address_ := 2 ^ 53 + 1;
                 c_minimum_tick_ := 0; c_maximum_tick_ := 0;
                 x_shift_ := 0; y_shift_ := 0 |}) = Some (2 ^ 53).
Proof. vm_compute. reflexivity. Qed.

(** X15: the two tick getters that return [double] lose nothing: each
    converts back to the tick of the integer getter, and they compare as
    the ticks do. *)
Theorem tick_getters_as_double (w : ContinuousHeapWindow) :
  ContinuousHeapWindow_wf w →
  double_to_uint U32 (getMinimumTickAsDouble w) = Some (getMinimumTick w)
  ∧ double_to_uint U32 (getMaximumTickAsDouble w) = Some (getMaximumTick w)
  ∧ (getMinimumTickAsDouble w <? getMaximumTickAsDouble w)%float
    = (getMinimumTick w <? getMaximumTick w)
  ∧ (getMaximumTickAsDouble w <? getMinimumTickAsDouble w)%float
    = (getMaximumTick w <? getMinimumTick w).
Proof.
  intros (_ & _ & Ht1 & Ht2).
  unfold getMinimumTickAsDouble, getMaximumTickAsDouble, getMinimumTick,
    getMaximumTick, uint_to_double.
  assert (H1 : c_minimum_tick_ w < 2 ^ 53 ∧ 0 <= c_minimum_tick_ w).
  { unfold in_range, numeric_limits_max in Ht1. cbn [bits] in Ht1. lia. }
  assert (H2 : c_maximum_tick_ w < 2 ^ 53 ∧ 0 <= c_maximum_tick_ w).
  { unfold in_range, numeric_limits_max in Ht2. cbn [bits] in Ht2. lia. }
  rewrite !double_to_uint_Z_to_double by tauto.
  rewrite !ltb_Z_to_double by lia. auto.
Qed.

Lemma tick_getters_as_double_witness :
  let w := {| c_minimum_address_ := 0; c_maximum_address_ := 1;
              c_minimum_tick_ := 2 ^ 32 - 2; c_maximum_tick_ := 2 ^ 32 - 1;
              x_shift_ := 0; y_shift_ := 0 |} in
  double_to_uint U32 (getMinimumTickAsDouble w) = Some (getMinimumTick w)
  ∧ double_to_uint U32 (getMaximumTickAsDouble w) = Some (getMaximumTick w)
  ∧ (getMinimumTickAsDouble w <? getMaximumTickAsDouble w)%float
    = (getMinimumTick w <? getMaximumTick w)
  ∧ (getMaximumTickAsDouble w <? getMinimumTickAsDouble w)%float
    = (getMaximumTick w <? getMinimumTick w).
Proof.
  intros w. apply (tick_getters_as_double w).
  vm_compute; repeat split; congruence.
Defined.

(** X16: for an ordered window whose minimum address is below 2^53, the
    minimum address converts to [double] and back unchanged, and the
    [double] maximum is never below the [double] minimum, wherever the
    maximum lies in the 64-bit range; when the maximum is below 2^53 too,
    it converts back unchanged and the difference of the two [double]
    getters is the [double] height. *)
Theorem address_getters_as_double (w : ContinuousHeapWindow) :
  ContinuousHeapWindow_wf w →
  getMinimumAddress w <= getMaximumAddress w →
  getMinimumAddress w < 2 ^ 53 →
  double_to_uint U64 (getMinimumAddressAsDouble w)
  = Some (getMinimumAddress w)
  ∧ (getMaximumAddressAsDouble w <? getMinimumAddressAsDouble w)%float = false
  ∧ (getMaximumAddress w < 2 ^ 53 →
     double_to_uint U64 (getMaximumAddressAsDouble w)
     = Some (getMaximumAddress w)
     ∧ (getMaximumAddressAsDouble w - getMinimumAddressAsDouble w)%float
       = c_height w).
Proof.
  unfold getMinimumAddress, getMaximumAddress, getMinimumAddressAsDouble,
    getMaximumAddressAsDouble, c_height, uint_to_double.
  intros (Ha1 & Ha2 & _ & _) Hle H53.
  pose proof Ha1 as Ha1'. pose proof Ha2 as Ha2'.
  unfold in_range, numeric_limits_max in Ha1', Ha2'. cbn [bits] in Ha1', Ha2'.
  rewrite double_to_uint_Z_to_double by assumption.
  split; [reflexivity|]. split.
  - destruct (Z_lt_le_dec (c_maximum_address_ w) (2 ^ 53)).
    + rewrite ltb_Z_to_double by lia. apply Z.ltb_ge. lia.
    + apply large_not_ltb; lia.
  - intros Hmax. rewrite double_to_uint_Z_to_double by assumption.
    rewrite sub_Z_to_double by lia.
    rewrite wrap_in_range
      by (unfold in_range, numeric_limits_max; cbn [bits]; lia).
    auto.
Qed.

Lemma address_getters_as_double_witness :
  let w := {| c_minimum_address_ := 0x7fff00000000;
              c_maximum_address_ := 2 ^ 64 - 1;
              c_minimum_tick_ := 0; c_maximum_tick_ := 1;
              x_shift_ := 0; y_shift_ := 0 |} in
  double_to_uint U64 (getMinimumAddressAsDouble w)
  = Some (getMinimumAddress w)
  ∧ (getMaximumAddressAsDouble w <? getMinimumAddressAsDouble w)%float = false
  ∧ (getMaximumAddress w < 2 ^ 53 →
     double_to_uint U64 (getMaximumAddressAsDouble w)
     = Some (getMaximumAddress w)
     ∧ (getMaximumAddressAsDouble w - getMinimumAddressAsDouble w)%float
       = c_height w).
Proof.
  intros w. apply (address_getters_as_double w);
    vm_compute; repeat split; congruence.
Defined.

(** X17: after setCurrentWindowToGlobal the current window shows the
    global area: its tick getters in [double] convert back to the ticks
    that [HeapHistory]'s own getters return, its two 32-bit halves
    recombine to [HeapHistory]'s minimum address, its maximum address is
    [HeapHistory]'s, and its [double] width, and its [double] height when
    below 2^53, are exactly the integers that [HeapWindow]'s width and
    height give for the global area. *)
Theorem setCurrentWindowToGlobal_view (h : HeapHistory) :
  HeapWindow_wf (global_area_ h) →
  let w := getCurrentWindow (setCurrentWindowToGlobal h) in
  ContinuousHeapWindow_wf w
  ∧ double_to_uint U32 (getMinimumTickAsDouble w)
    = Some (HeapHistory_getMinimumTick h)
  ∧ double_to_uint U32 (getMaximumTickAsDouble w)
    = Some (HeapHistory_getMaximumTick h)
  ∧ is_integer (c_width w) (width (global_area_ h)) = true
  ∧ double_to_uint U32 (c_width w) = Some (width (global_area_ h))
  ∧ getMinimumAddressHigh32 w * 2 ^ 32 + getMinimumAddressLow32 w
    = HeapHistory_getMinimumAddress h
  ∧ getMaximumAddress w = HeapHistory_getMaximumAddress h
  ∧ (height (global_area_ h) < 2 ^ 53 →
     is_integer (c_height w) (height (global_area_ h)) = true
     ∧ double_to_uint U64 (c_height w) = Some (height (global_area_ h))).
Proof.
  intros Hwf w. pose proof Hwf as (Ha1 & Ha2 & Ht1 & Ht2).
  unfold in_range, numeric_limits_max in Ha1, Ha2, Ht1, Ht2.
  cbn [bits] in Ha1, Ha2, Ht1, Ht2.
  subst w.
  unfold getCurrentWindow, setCurrentWindowToGlobal, reset,
    getMinimumTickAsDouble, getMaximumTickAsDouble, c_width, c_height,
    getMinimumAddressHigh32, getMinimumAddressLow32, getMaximumAddress,
    HeapHistory_getMinimumTick, HeapHistory_getMaximumTick,
    HeapHistory_getMinimumAddress, HeapHistory_getMaximumAddress,
    ContinuousHeapWindow_wf, width, height, uint_to_double.
  cbn [current_window_ c_minimum_address_ c_maximum_address_ c_minimum_tick_
       c_maximum_tick_].
  split; [exact Hwf|].
  pose proof (wrap_is_in_range U32 (maximum_tick_ (global_area_ h)
                                    - minimum_tick_ (global_area_ h))) as Hw.
  pose proof Hw as Hw'. unfold in_range, numeric_limits_max in Hw'.
  cbn [bits] in Hw'.
  rewrite !double_to_uint_Z_to_double
    by (try exact Hw; unfold in_range, numeric_limits_max; cbn [bits]; lia).
  rewrite is_integer_Z_to_double by lia.
  pose proof (wrap_is_in_range U64 (maximum_address_ (global_area_ h)
                                    - minimum_address_ (global_area_ h))) as Hh.
  pose proof Hh as Hh'. unfold in_range in Hh'.
  repeat split.
  - apply halves_recombine. lia.
  - apply is_integer_Z_to_double. lia.
  - apply double_to_uint_Z_to_double; assumption.
Qed.

Lemma setCurrentWindowToGlobal_view_witness :
  let blank := {| c_minimum_address_ := 0; c_maximum_address_ := 0;
                  c_minimum_tick_ := 0; c_maximum_tick_ := 0;
                  x_shift_ := 0; y_shift_ := 0 |} in
  let h := {| cached_blocks_sorted_by_address_ := [];
              current_tick_ := 7;
              current_window_ := blank;
              grid_rectangle_ := blank;
              global_area_ := {| minimum_address_ := 0x7fff12345678;
                                 maximum_address_ := 0x7fff12445678;
                                 minimum_tick_ := 1;
                                 maximum_tick_ := 7 |};
              heap_blocks_ := [];
              live_blocks_ := ∅;
              conflicts_ := [] |} in
  let w := getCurrentWindow (setCurrentWindowToGlobal h) in
  ContinuousHeapWindow_wf w
  ∧ double_to_uint U32 (getMinimumTickAsDouble w)
    = Some (HeapHistory_getMinimumTick h)
  ∧ double_to_uint U32 (getMaximumTickAsDouble w)
    = Some (HeapHistory_getMaximumTick h)
  ∧ is_integer (c_width w) (width (global_area_ h)) = true
  ∧ double_to_uint U32 (c_width w) = Some (width (global_area_ h))
  ∧ getMinimumAddressHigh32 w * 2 ^ 32 + getMinimumAddressLow32 w
    = HeapHistory_getMinimumAddress h
  ∧ getMaximumAddress w = HeapHistory_getMaximumAddress h
  ∧ (height (global_area_ h) < 2 ^ 53 →
     is_integer (c_height w) (height (global_area_ h)) = true
     ∧ double_to_uint U64 (c_height w) = Some (height (global_area_ h))).
Proof.
  intros blank h. apply (setCurrentWindowToGlobal_view h).
  vm_compute; repeat split; congruence.
Defined.
